(** * ALX Polly: input validation, rate limiting and authorization

    A shallow embedding of the TypeScript sources

      - [lib/security.ts]               (module [Security])
      - [lib/rate-limit.ts]             (module [RateLimit])
      - [lib/middleware/rate-limit.ts]  (module [Middleware])
      - [app/lib/actions/auth-actions.ts] (module [AuthActions])

    and [lib/env.ts] (module [Env]), and of [deletePoll] of
    [app/lib/actions/poll-actions.ts] (module [PollActions]), followed by
    the properties of these functions.

    Conventions.  A JavaScript string is a finite sequence of UTF-16 code
    units; it is modelled as a list of code units ([list N]).  [length] of
    the list is the [.length] of the string.  JavaScript numbers that hold
    counters and millisecond time stamps are modelled as [Z].  Reads of the
    clock ([Date.now()]) are explicit arguments; the process-wide
    [rateLimitStore] is threaded through the functions that use it. *)

From Stdlib Require Import ZArith NArith Lia Ascii String DecimalString.
From stdpp Require Import gmap list fin_maps.
From Equations Require Import Equations.
From Equations.Prop Require Import Logic.

Abbreviation jsstring := (list N).

(** A string literal of the source, as its sequence of code units. *)
Definition lit (s : string) : jsstring :=
  map N_of_ascii (list_ascii_of_string s).
Arguments lit : simpl never.

(** [Number.prototype.toString()] and [${n}] on an integer. *)
Definition numToString (z : Z) : jsstring :=
  lit (NilEmpty.string_of_int (Z.to_int z)).
Arguments numToString : simpl never.

(** Code units of the characters the source names. *)
Definition c_amp : N := 38.      (* & *)
Definition c_lt : N := 60.       (* < *)
Definition c_gt : N := 62.       (* > *)
Definition c_quot : N := 34.     (* double quote *)
Definition c_apos : N := 39.     (* apostrophe *)
Definition c_slash : N := 47.    (* / *)
Definition c_at : N := 64.       (* @ *)
Definition c_dot : N := 46.      (* . *)
Definition c_comma : N := 44.    (* , *)
Definition c_hyphen : N := 45.   (* - *)

(** ** Built-ins of the JavaScript runtime *)

Module Js.

(** ECMAScript WhiteSpace and LineTerminator code points: what
    [String.prototype.trim] removes and what [\s] matches. *)
Definition isWhiteSpace (c : N) : bool :=
  ((9 <=? c) && (c <=? 13)            (* TAB, LF, VT, FF, CR *)
   || (c =? 32) || (c =? 160)
   || (c =? 5760)                     (* U+1680 *)
   || ((8192 <=? c) && (c <=? 8202))  (* U+2000 .. U+200A *)
   || (c =? 8232) || (c =? 8233)      (* U+2028, U+2029 *)
   || (c =? 8239) || (c =? 8287)      (* U+202F, U+205F *)
   || (c =? 12288) || (c =? 65279))%N.

(** LineTerminator: what [.] in a regular expression does not match. *)
Definition isLineTerminator (c : N) : bool :=
  ((c =? 10) || (c =? 13) || (c =? 8232) || (c =? 8233))%N.

Fixpoint trimStart (s : jsstring) : jsstring :=
  match s with
  | [] => []
  | c :: r => if isWhiteSpace c then trimStart r else s
  end.

Definition trimEnd (s : jsstring) : jsstring :=
  rev (trimStart (rev s)).

Definition trim (s : jsstring) : jsstring := trimEnd (trimStart s).

(** [s.replace(/c/g, by)] for a pattern that is one literal character [c]
    and a replacement [by] without [$]: every occurrence of [c], left to
    right, is replaced. *)
Definition replaceChar (c : N) (by_ : jsstring) (s : jsstring) : jsstring :=
  flat_map (fun x => if (x =? c)%N then by_ else [x]) s.

(** [str.split(',')[0]]: the part before the first comma. *)
Fixpoint beforeComma (s : jsstring) : jsstring :=
  match s with
  | [] => []
  | c :: r => if (c =? c_comma)%N then [] else c :: beforeComma r
  end.

(** [/(?=.*C)/.test(s)] for a character class [C]: some position of [s]
    from which [.*C] matches, where [.] is any code unit that is not a
    line terminator. *)
Fixpoint dotStarThen (cls : N -> bool) (s : jsstring) : bool :=
  match s with
  | [] => false
  | c :: r => cls c || (negb (isLineTerminator c) && dotStarThen cls r)
  end.

Fixpoint testLookahead (cls : N -> bool) (s : jsstring) : bool :=
  match s with
  | [] => false
  | _ :: r => dotStarThen cls s || testLookahead cls r
  end.

Definition isLower (c : N) : bool := ((97 <=? c) && (c <=? 122))%N.
Definition isUpper (c : N) : bool := ((65 <=? c) && (c <=? 90))%N.
Definition isDigit (c : N) : bool := ((48 <=? c) && (c <=? 57))%N.

End Js.

(** ** lib/security.ts *)

Module Security.
Import Js.

(** [sanitizeHtml]: six global replacements, ampersand first.  The
    [typeof input !== 'string'] guard is dead for an argument of the
    declared type [string]. *)
Definition sanitizeHtml (input : jsstring) : jsstring :=
  replaceChar c_slash (lit "&#x2F;")
    (replaceChar c_apos (lit "&#x27;")
      (replaceChar c_quot (lit "&quot;")
        (replaceChar c_gt (lit "&gt;")
          (replaceChar c_lt (lit "&lt;")
            (replaceChar c_amp (lit "&amp;") input))))).

(** The pattern [<[^>]*>] at the start of [s]: a [<], then code units
    other than [>] up to the first [>].  The result is what follows the
    match. *)
Fixpoint after_gt (s : jsstring) : option jsstring :=
  match s with
  | [] => None
  | c :: r => if (c =? c_gt)%N then Some r else after_gt r
  end.

Definition match_tag (s : jsstring) : option jsstring :=
  match s with
  | c :: r => if (c =? c_lt)%N then after_gt r else None
  | [] => None
  end.

Lemma after_gt_length s r :
  after_gt s = Some r -> (length r < S (length s))%nat.
Proof.
  revert r; induction s as [|c s IH]; intros r; simpl; [discriminate|].
  destruct (c =? c_gt)%N; intros H.
  - inversion H; subst; lia.
  - specialize (IH _ H). lia.
Qed.

(** [s.replace(/<[^>]*>/g, '')]: scanning left to right, a match is
    dropped and the scan resumes after it; a code unit at which no match
    starts is kept. *)
Equations? strip_tags (s : jsstring) : jsstring by wf (length s) lt :=
  strip_tags [] := [];
  strip_tags (c :: r) with inspect (match_tag (c :: r)) => {
    | exist _ (Some rest) _ := strip_tags rest;
    | exist _ None _ := c :: strip_tags r }.
Proof.
  simpl in e. destruct (c =? c_lt)%N; [|discriminate].
  now apply after_gt_length in e.
Qed.

(** [sanitizeText]: tags removed, then five replacements (no [/]). *)
Definition sanitizeText (input : jsstring) : jsstring :=
  replaceChar c_apos (lit "&#x27;")
    (replaceChar c_quot (lit "&quot;")
      (replaceChar c_gt (lit "&gt;")
        (replaceChar c_lt (lit "&lt;")
          (replaceChar c_amp (lit "&amp;") (strip_tags input))))).

Record ValidationResult (T : Type) := mkResult {
  sanitized : T;
  errors : list jsstring
}.
Arguments mkResult {T} _ _.
Arguments sanitized {T} _.
Arguments errors {T} _.

(** A string is falsy exactly when it is empty. *)
Definition falsy (s : jsstring) : bool :=
  match s with [] => true | _ => false end.

Definition validatePollQuestion (question : jsstring)
  : ValidationResult jsstring :=
  let sanitized := trim (sanitizeText question) in
  let errors :=
    if falsy sanitized then [lit "Poll question is required"]
    else if (length sanitized <? 5)%nat then
      [lit "Poll question must be at least 5 characters long"]
    else if (500 <? length sanitized)%nat then
      [lit "Poll question must be less than 500 characters"]
    else [] in
  mkResult sanitized errors.

(** The [for] loop of [validatePollOptions]: [i] is the loop index,
    [sanitized] and [errors] the two arrays being pushed to. *)
Fixpoint optionsLoop (i : nat) (options : list jsstring)
    (sanitized errors : list jsstring) : list jsstring * list jsstring :=
  match options with
  | [] => (sanitized, errors)
  | o :: rest =>
      let option := trim (sanitizeText o) in
      if falsy option then
        optionsLoop (S i) rest sanitized
          (errors ++ [lit "Option " ++ numToString (Z.of_nat i + 1)
                        ++ lit " cannot be empty"])
      else if (200 <? length option)%nat then
        optionsLoop (S i) rest sanitized
          (errors ++ [lit "Option " ++ numToString (Z.of_nat i + 1)
                        ++ lit " must be less than 200 characters"])
      else
        optionsLoop (S i) rest (sanitized ++ [option]) errors
  end.

Definition validatePollOptions (options : list jsstring)
  : ValidationResult (list jsstring) :=
  if (length options <? 2)%nat then
    mkResult [] [lit "At least 2 options are required"]
  else if (10 <? length options)%nat then
    mkResult [] [lit "Maximum 10 options allowed"]
  else
    let '(sanitized, errors) := optionsLoop 0 options [] [] in
    let uniqueOptions : gset jsstring := list_to_set sanitized in
    if negb (size uniqueOptions =? length sanitized)%nat then
      mkResult sanitized (errors ++ [lit "Duplicate options are not allowed"])
    else
      mkResult sanitized errors.

Record PasswordResult := mkPassword { passwordErrors : list jsstring }.

Definition validatePassword (password : jsstring) : PasswordResult :=
  if falsy password then
    mkPassword [lit "Password is required"]
  else if (length password <? 8)%nat then
    mkPassword [lit "Password must be at least 8 characters long"]
  else if (128 <? length password)%nat then
    mkPassword [lit "Password is too long"]
  else if negb (testLookahead isLower password) then
    mkPassword [lit "Password must contain at least one lowercase letter"]
  else if negb (testLookahead isUpper password) then
    mkPassword [lit "Password must contain at least one uppercase letter"]
  else if negb (testLookahead isDigit password) then
    mkPassword [lit "Password must contain at least one number"]
  else
    mkPassword [].

(** The pattern [^[^\s@]+@[^\s@]+\.[^\s@]+$]: the string is
    [local @ domain] with exactly one [@], no white space, a non-empty
    local part, and a domain with a dot that is neither its first nor its
    last code unit. *)
Definition emailChar (c : N) : bool :=
  negb (isWhiteSpace c) && negb (c =? c_at)%N.

Fixpoint splitAt_ (s : jsstring) : option (jsstring * jsstring) :=
  match s with
  | [] => None
  | c :: r =>
      if (c =? c_at)%N then Some ([], r)
      else match splitAt_ r with
           | Some (a, b) => Some (c :: a, b)
           | None => None
           end
  end.

Definition innerDot (domain : jsstring) : bool :=
  match domain with
  | [] => false
  | _ :: r => existsb (fun c => (c =? c_dot)%N) (removelast r)
  end.

Definition emailShape (s : jsstring) : bool :=
  match splitAt_ s with
  | Some (loc, domain) =>
      negb (falsy loc) && forallb emailChar loc
      && forallb emailChar domain && innerDot domain
  | None => false
  end.

(** The pattern [^[a-zA-Z\s'-]+$]. *)
Definition nameChar (c : N) : bool :=
  isLower c || isUpper c || isWhiteSpace c
  || (c =? c_apos)%N || (c =? c_hyphen)%N.

Definition nameShape (s : jsstring) : bool :=
  negb (falsy s) && forallb nameChar s.

Section WithRuntime.

(** [String.prototype.toLowerCase] follows the Unicode case mapping of the
    runtime; the validators only pass their argument through it. *)
Variable toLowerCase : jsstring -> jsstring.

Definition validateEmail (email : jsstring) : ValidationResult jsstring :=
  let sanitized := toLowerCase (trim email) in
  let errors :=
    if falsy sanitized then [lit "Email is required"]
    else if negb (emailShape sanitized) then
      [lit "Please enter a valid email address"]
    else if (254 <? length sanitized)%nat then
      [lit "Email address is too long"]
    else [] in
  mkResult sanitized errors.

End WithRuntime.

Definition validateName (name : jsstring) : ValidationResult jsstring :=
  let sanitized := trim (sanitizeText name) in
  let errors :=
    if falsy sanitized then [lit "Name is required"]
    else if (length sanitized <? 2)%nat then
      [lit "Name must be at least 2 characters long"]
    else if (100 <? length sanitized)%nat then
      [lit "Name must be less than 100 characters"]
    else if negb (nameShape sanitized) then
      [lit "Name can only contain letters, spaces, hyphens, and apostrophes"]
    else [] in
  mkResult sanitized errors.

End Security.

(** ** lib/rate-limit.ts *)

Module RateLimit.

Record RateLimitEntry := mkEntry {
  count : Z;
  resetTime : Z
}.

(** The keys of [RATE_LIMITS]. *)
Inductive RateLimitType := auth | pollCreation | api.

Record RateLimitConfig := mkConfig {
  windowMs : Z;
  maxAttempts : Z
}.

Definition RATE_LIMITS (type : RateLimitType) : RateLimitConfig :=
  match type with
  | auth => mkConfig (15 * 60 * 1000) 5
  | pollCreation => mkConfig (60 * 1000) 3
  | api => mkConfig (60 * 1000) 30
  end.

Definition typeName (type : RateLimitType) : jsstring :=
  match type with
  | auth => lit "auth"
  | pollCreation => lit "pollCreation"
  | api => lit "api"
  end.

(** The template literal [`${type}:${identifier}`]. *)
Definition storeKey (type : RateLimitType) (identifier : jsstring) : jsstring :=
  typeName type ++ lit ":" ++ identifier.

(** [rateLimitStore], a [Map<string, RateLimitEntry>]. *)
Abbreviation Store := (gmap jsstring RateLimitEntry).

Record RateLimitResult := mkLimit {
  allowed : bool;
  remaining : Z;
  resultResetTime : Z
}.

(** [checkRateLimit], with the value [now] of [Date.now()] and the store
    before the call as arguments; the store after the call is the second
    component of the result.  [entry.count++] followed by
    [rateLimitStore.set(key, entry)] leaves under [key] the entry with the
    incremented count and the old [resetTime]. *)
Definition checkRateLimit (now : Z) (identifier : jsstring)
    (type : RateLimitType) (store : Store) : RateLimitResult * Store :=
  let config := RATE_LIMITS type in
  let key := storeKey type identifier in
  let fresh :=
    let newEntry := mkEntry 1 (now + windowMs config) in
    (mkLimit true (maxAttempts config - 1) (resetTime newEntry),
     <[key := newEntry]> store) in
  match store !! key with
  | None => fresh
  | Some entry =>
      if (now >? resetTime entry)%Z then fresh
      else if (count entry >=? maxAttempts config)%Z then
        (mkLimit false 0 (resetTime entry), store)
      else
        let entry' := mkEntry (count entry + 1) (resetTime entry) in
        (mkLimit true (maxAttempts config - count entry') (resetTime entry'),
         <[key := entry']> store)
  end.

(** [Headers.get] on the three header names [getClientIP] reads; an
    absent header is [null]. *)
Record Headers := mkHeaders {
  x_forwarded_for : option jsstring;
  x_real_ip : option jsstring;
  cf_connecting_ip : option jsstring
}.

(** A header value is used when it is truthy: present and not empty. *)
Definition truthy (h : option jsstring) : option jsstring :=
  match h with
  | Some (c :: r) => Some (c :: r)
  | _ => None
  end.

Definition getClientIP (headers : Headers) : jsstring :=
  match truthy (cf_connecting_ip headers) with
  | Some cfConnectingIP => cfConnectingIP
  | None =>
    match truthy (x_real_ip headers) with
    | Some realIP => realIP
    | None =>
      match truthy (x_forwarded_for headers) with
      | Some forwarded => Js.trim (Js.beforeComma forwarded)
      | None => lit "unknown"
      end
    end
  end.

(** [cleanupExpiredEntries]: every entry whose window has expired is
    deleted. *)
Definition cleanupExpiredEntries (now : Z) (store : Store) : Store :=
  filter (fun kv => negb (now >? resetTime kv.2)%Z = true) store.

(** The stores the process can be in: the module starts with an empty
    [Map], and the store changes only in [checkRateLimit] and in the
    periodic [cleanupExpiredEntries]. *)
Inductive reachable : Store -> Prop :=
| reach_init : reachable ∅
| reach_check now identifier type store :
    reachable store ->
    reachable (checkRateLimit now identifier type store).2
| reach_cleanup now store :
    reachable store ->
    reachable (cleanupExpiredEntries now store).

End RateLimit.

(** ** lib/middleware/rate-limit.ts *)

Module Middleware.
Import RateLimit.

(** Header names of a response are case-insensitive: the [Headers] object
    keeps them in lower case, so [set] replaces whatever value the name
    had in any spelling. *)
Definition asciiLower (s : jsstring) : jsstring :=
  map (fun c => if Js.isUpper c then (c + 32)%N else c) s.

Abbreviation ResponseHeaders := (gmap jsstring jsstring).

Definition setHeader (name value : jsstring) (h : ResponseHeaders)
  : ResponseHeaders := <[asciiLower name := value]> h.

Definition getHeader (name : jsstring) (h : ResponseHeaders)
  : option jsstring := h !! asciiLower name.

Record NextResponse := mkResponse {
  body : jsstring;
  status : Z;
  headers : ResponseHeaders
}.

(** [Math.ceil(ms / 1000)] on an integer number of milliseconds. *)
Definition ceilSeconds (ms : Z) : Z := (- ((- ms) / 1000))%Z.

(** [JSON.stringify({ error: ..., retryAfter: n })]. *)
Definition tooManyRequestsBody (retryAfter : Z) : jsstring :=
  lit "{" ++ [c_quot] ++ lit "error" ++ [c_quot] ++ lit ":"
  ++ [c_quot] ++ lit "Too many requests. Please try again later." ++ [c_quot]
  ++ lit "," ++ [c_quot] ++ lit "retryAfter" ++ [c_quot] ++ lit ":"
  ++ numToString retryAfter ++ lit "}".

Section WithRequest.

(** A [NextRequest], of which the middleware reads only the headers. *)
Variable NextRequest : Type.
Variable requestHeaders : NextRequest -> Headers.

(** The wrapped route handler; it runs in the same process, so it may
    itself use the store. *)
Definition Handler : Type := NextRequest -> Store -> NextResponse * Store.

(** [withRateLimit(handler, rateLimitType = 'api')], applied to a request.
    [now] is the clock read inside [checkRateLimit]; [now1] and [now2] are
    the two later reads made when the denial response is built. *)
Definition withRateLimit (handler : Handler)
    (rateLimitType : option RateLimitType) (now now1 now2 : Z)
    (req : NextRequest) (store : Store) : NextResponse * Store :=
  let type := default api rateLimitType in
  let clientIP := getClientIP (requestHeaders req) in
  let '(rateLimitResult, store1) := checkRateLimit now clientIP type store in
  if negb (allowed rateLimitResult) then
    (mkResponse
       (tooManyRequestsBody (ceilSeconds (resultResetTime rateLimitResult - now1)))
       429
       (setHeader (lit "X-RateLimit-Reset")
            (numToString (resultResetTime rateLimitResult))
         (setHeader (lit "X-RateLimit-Remaining")
              (numToString (remaining rateLimitResult))
           (setHeader (lit "X-RateLimit-Limit") (lit "5")
             (setHeader (lit "Retry-After")
                  (numToString
                     (ceilSeconds (resultResetTime rateLimitResult - now2)))
               (setHeader (lit "Content-Type") (lit "application/json")
                  ∅))))),
     store1)
  else
    let '(response, store2) := handler req store1 in
    (mkResponse (body response) (status response)
       (setHeader (lit "X-RateLimit-Reset")
            (numToString (resultResetTime rateLimitResult))
         (setHeader (lit "X-RateLimit-Remaining")
              (numToString (remaining rateLimitResult))
           (setHeader (lit "X-RateLimit-Limit") (lit "5")
              (headers response)))),
     store2).

End WithRequest.

End Middleware.

(** ** app/lib/actions/auth-actions.ts *)

Module AuthActions.
Import Security.

(** The error object of the authentication platform. *)
Record AuthError := mkAuthError {
  message : jsstring;
  code : jsstring;
  errorStatus : Z
}.

Record LoginFormData := mkLogin {
  loginEmail : jsstring;
  loginPassword : jsstring
}.

Record RegisterFormData := mkRegister {
  registerEmail : jsstring;
  registerPassword : jsstring;
  registerName : jsstring
}.

(** The [{ error }] object every handler returns; [None] is [null]. *)
Record ActionResult := mkAction { error : option jsstring }.

Section WithPlatform.

Variable toLowerCase : jsstring -> jsstring.

(** The calls into the platform client.  Each returns the [error] field
    of the platform's answer ([None] when the call succeeded). *)
Variable signInWithPassword :
  forall (email password : jsstring), option AuthError.
Variable signUp :
  forall (email password name : jsstring), option AuthError.
Variable signOut : option AuthError.

Definition login (data : LoginFormData) : ActionResult :=
  let emailValidation := validateEmail toLowerCase (loginEmail data) in
  let passwordValidation := validatePassword (loginPassword data) in
  match errors emailValidation with
  | e :: _ => mkAction (Some e)
  | [] =>
    match passwordErrors passwordValidation with
    | e :: _ => mkAction (Some e)
    | [] =>
      match signInWithPassword (sanitized emailValidation)
              (loginPassword data) with
      | Some _ => mkAction (Some (lit "Invalid email or password"))
      | None => mkAction None
      end
    end
  end.

Definition register (data : RegisterFormData) : ActionResult :=
  let emailValidation := validateEmail toLowerCase (registerEmail data) in
  let passwordValidation := validatePassword (registerPassword data) in
  let nameValidation := validateName (registerName data) in
  match errors emailValidation with
  | e :: _ => mkAction (Some e)
  | [] =>
    match passwordErrors passwordValidation with
    | e :: _ => mkAction (Some e)
    | [] =>
      match errors nameValidation with
      | e :: _ => mkAction (Some e)
      | [] =>
        match signUp (sanitized emailValidation) (registerPassword data)
                (sanitized nameValidation) with
        | Some _ =>
            mkAction (Some (lit "Failed to create account. Please try again."))
        | None => mkAction None
        end
      end
    end
  end.

Definition logout : ActionResult :=
  match signOut with
  | Some error => mkAction (Some (message error))
  | None => mkAction None
  end.

End WithPlatform.

End AuthActions.

(** ** app/lib/actions/poll-actions.ts *)

Module PollActions.

Abbreviation UserId := jsstring.
Abbreviation PollId := jsstring.

Record Poll := mkPoll {
  ownerId : UserId;
  question : jsstring;
  options : list jsstring
}.

(** The polls table of the data platform, by poll id. *)
Abbreviation Polls := (gmap PollId Poll).

(** The acting identity: [None] is an unauthenticated caller. *)
Abbreviation Identity := (option UserId).

Inductive ActionError := Forbidden.

(** What the handler asks of the data platform, in order. *)
Inductive PlatformCall :=
| FetchOwner (id : PollId)
| DeleteRow (id : PollId).

Definition isMutation (c : PlatformCall) : bool :=
  match c with
  | FetchOwner _ => false
  | DeleteRow _ => true
  end.

Record Outcome := mkOutcome {
  result : option ActionError;
  polls : Polls;
  calls : list PlatformCall
}.

(** Modelled from the spec: [deletePoll] of [poll-actions.ts], which is
    not among the sources.  The spec's Authorization Gate: fetch the
    poll's [ownerId]; fail with [Forbidden] unless the acting identity's
    id equals [ownerId]; an unauthenticated caller is always denied; the
    denial comes before any mutation is attempted, and is the same
    whether the poll does not exist or belongs to someone else. *)
Definition deletePoll (actor : Identity) (id : PollId) (db : Polls)
  : Outcome :=
  let owner := ownerId <$> db !! id in
  match actor, owner with
  | Some uid, Some o =>
      if bool_decide (uid = o) then
        mkOutcome None (delete id db) [FetchOwner id; DeleteRow id]
      else
        mkOutcome (Some Forbidden) db [FetchOwner id]
  | _, _ => mkOutcome (Some Forbidden) db [FetchOwner id]
  end.

End PollActions.

(** ** lib/env.ts *)

Module Env.

(** [s.startsWith(p)]. *)
Fixpoint startsWith (p s : jsstring) : bool :=
  match p, s with
  | [], _ => true
  | a :: p', b :: s' => (a =? b)%N && startsWith p' s'
  | _ :: _, [] => false
  end.

(** [s.includes(p)]: [p] occurs in [s] at some position. *)
Fixpoint includes (p s : jsstring) : bool :=
  startsWith p s ||
  match s with
  | [] => false
  | _ :: r => includes p r
  end.

(** [s.split(c)] for a separator of one character. *)
Fixpoint splitChar (c : N) (s : jsstring) : list jsstring :=
  match s with
  | [] => [[]]
  | x :: r =>
      if (x =? c)%N then [] :: splitChar c r
      else match splitChar c r with
           | piece :: pieces => (x :: piece) :: pieces
           | [] => [[x]]
           end
  end.

(** [parts.join(sep)]. *)
Fixpoint join (sep : jsstring) (parts : list jsstring) : jsstring :=
  match parts with
  | [] => []
  | [x] => x
  | x :: rest => x ++ sep ++ join sep rest
  end.

(** [process.env]: the variables that are set. *)
Abbreviation ProcessEnv := (gmap jsstring jsstring).

Record EnvConfig := mkEnvConfig {
  NEXT_PUBLIC_SUPABASE_URL : jsstring;
  NEXT_PUBLIC_SUPABASE_ANON_KEY : jsstring;
  SUPABASE_SECRET_KEY : option jsstring;
  NODE_ENV : jsstring
}.

(** A call either returns or throws [new Error(message)]. *)
Inductive Thrown (A : Type) :=
| Returned (a : A)
| ThrewError (message : jsstring).
Arguments Returned {A} _.
Arguments ThrewError {A} _.

Definition requiredVars : list jsstring :=
  [lit "NEXT_PUBLIC_SUPABASE_URL"; lit "NEXT_PUBLIC_SUPABASE_ANON_KEY"].

(** [!process.env[varName]]: unset, or set to the empty string. *)
Definition unset (env : ProcessEnv) (varName : jsstring) : bool :=
  match env !! varName with
  | Some (_ :: _) => false
  | _ => true
  end.

Definition getEnvConfig (env : ProcessEnv) : Thrown EnvConfig :=
  let missingVars := List.filter (unset env) requiredVars in
  if (0 <? length missingVars)%nat then
    ThrewError
      (lit "Missing required environment variables: "
       ++ join (lit ", ") missingVars ++ [10%N]
       ++ lit "Please check your .env.local file and ensure all required variables are set.")
  else
    let supabaseUrl := default [] (env !! lit "NEXT_PUBLIC_SUPABASE_URL") in
    if negb (startsWith (lit "https://") supabaseUrl)
       || negb (includes (lit ".supabase.co") supabaseUrl) then
      ThrewError
        (lit "NEXT_PUBLIC_SUPABASE_URL must be a valid Supabase URL (https://*.supabase.co)")
    else
      let anonKey := default [] (env !! lit "NEXT_PUBLIC_SUPABASE_ANON_KEY") in
      if negb (includes (lit ".") anonKey)
         || negb (length (splitChar c_dot anonKey) =? 3)%nat then
        ThrewError
          (lit "NEXT_PUBLIC_SUPABASE_ANON_KEY must be a valid JWT token")
      else
        Returned
          (mkEnvConfig supabaseUrl anonKey
             (env !! lit "SUPABASE_SECRET_KEY")
             (match env !! lit "NODE_ENV" with
              | Some (c :: r) => c :: r
              | _ => lit "development"
              end)).

(** What loading the module does: [envConfig] is set, or the error is
    logged and [envConfig] stays [undefined], or the error is thrown
    again. *)
Inductive ModuleLoad :=
| Configured (envConfig : EnvConfig)
| Unconfigured
| LoadFailed (message : jsstring).

Definition loadModule (env : ProcessEnv) : ModuleLoad :=
  match getEnvConfig env with
  | Returned config => Configured config
  | ThrewError message =>
      if bool_decide (env !! lit "NODE_ENV" = Some (lit "production"))
      then LoadFailed message
      else Unconfigured
  end.

End Env.

(** * Definitions used to state the properties *)

Import Js Security RateLimit Middleware AuthActions PollActions.

(** ** Escaping *)

(** The six characters [sanitizeHtml] escapes. *)
Definition escapedChars : list N :=
  [c_amp; c_lt; c_gt; c_quot; c_apos; c_slash].

(** ** Password rules *)

(** The rules of [validatePassword] as the specification lists them: a
    condition the password must meet, and the error reported when it does
    not. *)
Definition passwordRules : list ((jsstring -> bool) * jsstring) :=
  [ (fun p => negb (length p =? 0),
       lit "Password is required");
    (fun p => 8 <=? length p,
       lit "Password must be at least 8 characters long");
    (fun p => length p <=? 128,
       lit "Password is too long");
    (fun p => existsb isLower p,
       lit "Password must contain at least one lowercase letter");
    (fun p => existsb isUpper p,
       lit "Password must contain at least one uppercase letter");
    (fun p => existsb isDigit p,
       lit "Password must contain at least one number") ].

(** Sequential checking: the error of the first rule that fails, and
    nothing after it. *)
Fixpoint firstViolation (rules : list ((jsstring -> bool) * jsstring))
    (p : jsstring) : list jsstring :=
  match rules with
  | [] => []
  | (holds, msg) :: rest =>
      if holds p then firstViolation rest p else [msg]
  end.

(** ** Poll options *)

(** The specification's reading of [validatePollOptions]. *)

(** An option after [sanitizeText] and trimming. *)
Definition cleanOption (o : jsstring) : jsstring := trim (sanitizeText o).

(** The error, if any, of the option at 0-based position [i]: it names
    the 1-based index [i + 1]. *)
Definition optionError (i : nat) (o : jsstring) : option jsstring :=
  if length (cleanOption o) =? 0 then
    Some (lit "Option " ++ numToString (Z.of_nat i + 1)
            ++ lit " cannot be empty")
  else if 200 <? length (cleanOption o) then
    Some (lit "Option " ++ numToString (Z.of_nat i + 1)
            ++ lit " must be less than 200 characters")
  else None.

(** One error per failing option, in the order of the options. *)
Definition optionErrors (options : list jsstring) : list jsstring :=
  omap id (imap optionError options).

(** The cleaned options that are neither empty nor longer than 200. *)
Definition acceptedOptions (options : list jsstring) : list jsstring :=
  filter (fun o => 1 <= length o <= 200) (cleanOption <$> options).

(** One duplicate error exactly when two accepted options are equal. *)
Definition duplicateErrors (accepted : list jsstring) : list jsstring :=
  if decide (NoDup accepted) then []
  else [lit "Duplicate options are not allowed"].

(** ** Rate limiter *)

(** The entry that opens a window at time [now]. *)
Definition freshEntry (now : Z) (type : RateLimitType) : RateLimitEntry :=
  mkEntry 1 (now + windowMs (RATE_LIMITS type)).

(** Every entry of a store sits under the key of some limit class and
    identifier, with a count between 1 and the maximum of that class. *)
Definition wellCounted (store : gmap jsstring RateLimitEntry) : Prop :=
  forall key entry, store !! key = Some entry ->
    exists type id, key = storeKey type id
      /\ (1 <= count entry <= maxAttempts (RATE_LIMITS type))%Z.

(** ** Single-pass escaping *)

(** What one code unit becomes under [sanitizeHtml]. *)
Definition escapeHtmlChar (c : N) : jsstring :=
  if (c =? c_amp)%N then lit "&amp;"
  else if (c =? c_lt)%N then lit "&lt;"
  else if (c =? c_gt)%N then lit "&gt;"
  else if (c =? c_quot)%N then lit "&quot;"
  else if (c =? c_apos)%N then lit "&#x27;"
  else if (c =? c_slash)%N then lit "&#x2F;"
  else [c].

(** What one code unit becomes under the replacements of [sanitizeText]. *)
Definition escapeTextChar (c : N) : jsstring :=
  if (c =? c_amp)%N then lit "&amp;"
  else if (c =? c_lt)%N then lit "&lt;"
  else if (c =? c_gt)%N then lit "&gt;"
  else if (c =? c_quot)%N then lit "&quot;"
  else if (c =? c_apos)%N then lit "&#x27;"
  else [c].

(** Reading the entities of [sanitizeHtml] back.  [skip] counts the code
    units of an entity still to be passed over. *)
Definition entityTail (r : jsstring) : option (N * nat) :=
  if Env.startsWith (lit "amp;") r then Some (c_amp, 4)
  else if Env.startsWith (lit "lt;") r then Some (c_lt, 3)
  else if Env.startsWith (lit "gt;") r then Some (c_gt, 3)
  else if Env.startsWith (lit "quot;") r then Some (c_quot, 5)
  else if Env.startsWith (lit "#x27;") r then Some (c_apos, 5)
  else if Env.startsWith (lit "#x2F;") r then Some (c_slash, 5)
  else None.

Fixpoint unescapeFrom (skip : nat) (s : jsstring) : jsstring :=
  match s with
  | [] => []
  | c :: r =>
      match skip with
      | S k => unescapeFrom k r
      | O =>
          if (c =? c_amp)%N then
            match entityTail r with
            | Some (x, n) => x :: unescapeFrom n r
            | None => c :: unescapeFrom 0 r
            end
          else c :: unescapeFrom 0 r
      end
  end.

Definition unescapeHtml (s : jsstring) : jsstring := unescapeFrom 0 s.

(** ** Tag stripping *)

(** The pattern [<[^>]*>] matches nowhere in [t]. *)
Definition tagFree (t : jsstring) : Prop :=
  forall p u, t = p ++ u -> match_tag u = None.

(** ** E-mail addresses *)

(** The shape the pattern of [validateEmail] asks for, read off the
    pattern: a local part, [@], a domain part, a dot and a last part, the
    three parts non-empty and free of white space and of [@]. *)
Definition localAtDomain (s : jsstring) : Prop :=
  exists a b c,
    s = a ++ c_at :: b ++ c_dot :: c
    /\ a <> [] /\ b <> [] /\ c <> []
    /\ forallb emailChar (a ++ b ++ c) = true.

(** ** Sequences of rate-limit checks *)

(** [checkRateLimit] called once for each of the clock values [times],
    in order, for the same identifier and class. *)
Fixpoint checkMany (times : list Z) (identifier : jsstring)
    (type : RateLimitType) (store : gmap jsstring RateLimitEntry)
  : list RateLimitResult * gmap jsstring RateLimitEntry :=
  match times with
  | [] => ([], store)
  | now :: later =>
      let '(r, store1) := checkRateLimit now identifier type store in
      let '(rs, store2) := checkMany later identifier type store1 in
      (r :: rs, store2)
  end.

(** What [checkRateLimit] answers and what it writes under the key, as a
    function of what it finds there. *)
Definition verdict (now : Z) (type : RateLimitType)
    (found : option RateLimitEntry) : RateLimitResult * option RateLimitEntry :=
  let config := RATE_LIMITS type in
  let fresh :=
    (mkLimit true (maxAttempts config - 1) (now + windowMs config),
     Some (mkEntry 1 (now + windowMs config))) in
  match found with
  | None => fresh
  | Some entry =>
      if (now >? resetTime entry)%Z then fresh
      else if (count entry >=? maxAttempts config)%Z then
        (mkLimit false 0 (resetTime entry), None)
      else
        (mkLimit true (maxAttempts config - (count entry + 1)) (resetTime entry),
         Some (mkEntry (count entry + 1) (resetTime entry)))
  end.

(** ** Messages of the authentication handlers *)

Definition emailMessages : list jsstring :=
  [ lit "Email is required";
    lit "Please enter a valid email address";
    lit "Email address is too long" ].

Definition passwordMessages : list jsstring :=
  [ lit "Password is required";
    lit "Password must be at least 8 characters long";
    lit "Password is too long";
    lit "Password must contain at least one lowercase letter";
    lit "Password must contain at least one uppercase letter";
    lit "Password must contain at least one number" ].

Definition nameMessages : list jsstring :=
  [ lit "Name is required";
    lit "Name must be at least 2 characters long";
    lit "Name must be less than 100 characters";
    lit "Name can only contain letters, spaces, hyphens, and apostrophes" ].

(** An error that is [null] or one of the given messages. *)
Definition errorAmong (messages : list jsstring) (r : ActionResult) : Prop :=
  match error r with
  | None => True
  | Some e => e ∈ messages
  end.

(** ** Environment *)

(** The number of dots of a string. *)
Definition dots (s : jsstring) : nat :=
  length (List.filter (fun x => (x =? c_dot)%N) s).

(** * Properties *)

(** The inputs of [scripts/security-test.js] and of the specification's
    examples, run through the model. *)
Example sanitizeHtml_script :
  sanitizeHtml (lit "<script>alert(1)</script>")
  = lit "&lt;script&gt;alert(1)&lt;&#x2F;script&gt;".
Proof. reflexivity. Qed.

Example sanitizeText_markup :
  sanitizeText (lit "<p>Hello <strong>World</strong>!</p>")
  = lit "Hello World!".
Proof. reflexivity. Qed.

Example sanitizeText_unclosed :
  sanitizeText (lit "a < b & c") = lit "a &lt; b &amp; c".
Proof. reflexivity. Qed.

Example validatePollOptions_duplicate :
  validatePollOptions [lit "Option 1"; lit "Option 1"]
  = mkResult [lit "Option 1"; lit "Option 1"]
      [lit "Duplicate options are not allowed"].
Proof. vm_compute. reflexivity. Qed.

Example validatePollOptions_empty :
  validatePollOptions [[]; lit "Option 1"]
  = mkResult [lit "Option 1"] [lit "Option 1 cannot be empty"].
Proof. vm_compute. reflexivity. Qed.

Example validatePollOptions_valid :
  validatePollOptions [lit "JavaScript"; lit "Python"; lit "Java"]
  = mkResult [lit "JavaScript"; lit "Python"; lit "Java"] [].
Proof. vm_compute. reflexivity. Qed.

Example validatePollQuestion_short :
  errors (validatePollQuestion (lit "Hi"))
  = [lit "Poll question must be at least 5 characters long"].
Proof. reflexivity. Qed.

Example getClientIP_forwarded :
  getClientIP (mkHeaders (Some (lit " 203.0.113.7 , 10.0.0.1")) None None)
  = lit "203.0.113.7".
Proof. reflexivity. Qed.


(** ** Escaping *)

Section ReplaceChar.

Variables (c : N) (by_ : jsstring).

Lemma elem_of_replaceChar x s :
  x ∈ replaceChar c by_ s <-> (x ∈ s /\ x <> c) \/ (x ∈ by_ /\ c ∈ s).
Proof.
  unfold replaceChar. rewrite list_elem_of_In, in_flat_map. split.
  - intros (y & Hy & Hx). apply list_elem_of_In in Hy.
    destruct (N.eqb_spec y c) as [->|Hne].
    + right. split; [now apply list_elem_of_In|assumption].
    + left. destruct Hx as [<-|[]]. now split.
  - intros [[Hx Hne]|[Hx Hc]].
    + exists x. split; [now apply list_elem_of_In|].
      destruct (N.eqb_spec x c); [contradiction|now left].
    + exists c. split; [now apply list_elem_of_In|].
      rewrite N.eqb_refl. now apply list_elem_of_In.
Qed.

Lemma replaceChar_keeps x s :
  x ∈ s -> x <> c -> x ∈ replaceChar c by_ s.
Proof. intros. apply elem_of_replaceChar. now left. Qed.

Lemma replaceChar_brings x s :
  c ∈ s -> x ∈ by_ -> x ∈ replaceChar c by_ s.
Proof. intros. apply elem_of_replaceChar. now right. Qed.

Lemma replaceChar_removes s :
  c ∉ by_ -> c ∉ replaceChar c by_ s.
Proof.
  intros Hby H. apply elem_of_replaceChar in H as [[_ H]|[H _]]; tauto.
Qed.

Lemma replaceChar_absent x s :
  x ∉ s -> x ∉ by_ -> x ∉ replaceChar c by_ s.
Proof.
  intros Hs Hby H. apply elem_of_replaceChar in H as [[H _]|[H _]]; tauto.
Qed.

Lemma replaceChar_id s : c ∉ s -> replaceChar c by_ s = s.
Proof.
  unfold replaceChar. induction s as [|x s IH]; intros H; [reflexivity|].
  apply not_elem_of_cons in H as [Hx Hs]. simpl.
  destruct (N.eqb_spec x c); [congruence|]. simpl. now rewrite IH.
Qed.

Lemma replaceChar_length_le s :
  by_ <> [] -> length s <= length (replaceChar c by_ s).
Proof.
  intros Hby. unfold replaceChar. induction s as [|x s IH]; simpl; [lia|].
  rewrite length_app. destruct (x =? c)%N; simpl; [|lia].
  destruct by_; [congruence|simpl; lia].
Qed.

Lemma replaceChar_length_lt s :
  2 <= length by_ -> c ∈ s -> length s < length (replaceChar c by_ s).
Proof.
  intros Hby. assert (by_ <> []) as Hne by (destruct by_; [simpl in Hby; lia|easy]).
  induction s as [|x s IH]; intros Hc; [now apply elem_of_nil in Hc|].
  change (replaceChar c by_ (x :: s))
    with ((if (x =? c)%N then by_ else [x]) ++ replaceChar c by_ s).
  rewrite length_app. pose proof (replaceChar_length_le s Hne).
  destruct (N.eqb_spec x c) as [->|Hxc]; simpl; [lia|].
  apply elem_of_cons in Hc as [->|Hc]; [congruence|].
  specialize (IH Hc). lia.
Qed.

End ReplaceChar.

(** Membership of a code unit in a string literal is settled by
    evaluation. *)
Ltac not_in_literal :=
  let H := fresh in
  intros H; apply list_elem_of_In in H; vm_compute in H;
  repeat (destruct H as [H|H]; [discriminate H|]); exact H.

Ltac in_literal :=
  apply list_elem_of_In; vm_compute; tauto.

Lemma sanitizeHtml_no_lt s : c_lt ∉ sanitizeHtml s.
Proof.
  unfold sanitizeHtml.
  do 4 (apply replaceChar_absent; [|not_in_literal]).
  apply replaceChar_removes. not_in_literal.
Qed.

Lemma sanitizeHtml_no_gt s : c_gt ∉ sanitizeHtml s.
Proof.
  unfold sanitizeHtml.
  do 3 (apply replaceChar_absent; [|not_in_literal]).
  apply replaceChar_removes. not_in_literal.
Qed.

Lemma sanitizeText_no_lt s : c_lt ∉ sanitizeText s.
Proof.
  unfold sanitizeText.
  do 3 (apply replaceChar_absent; [|not_in_literal]).
  apply replaceChar_removes. not_in_literal.
Qed.

Lemma sanitizeText_no_gt s : c_gt ∉ sanitizeText s.
Proof.
  unfold sanitizeText.
  do 2 (apply replaceChar_absent; [|not_in_literal]).
  apply replaceChar_removes. not_in_literal.
Qed.

(** C6.  The output of [sanitizeHtml] and the output of [sanitizeText]
    contain no literal [<] and no literal [>] code unit.  This holds for
    every input string, so in particular for every input that contains
    [<script>] or an event-handler attribute. *)
Theorem sanitize_output_has_no_angle_brackets (s : jsstring) :
  ((c_lt ∉ sanitizeHtml s) /\ (c_gt ∉ sanitizeHtml s))
  /\ ((c_lt ∉ sanitizeText s) /\ (c_gt ∉ sanitizeText s)).
Proof.
  auto using sanitizeHtml_no_lt, sanitizeHtml_no_gt,
    sanitizeText_no_lt, sanitizeText_no_gt.
Qed.

(** ** Double escaping *)

Lemma sanitizeHtml_grows s :
  c_amp ∈ s -> length s < length (sanitizeHtml s).
Proof.
  intros H. unfold sanitizeHtml.
  eapply Nat.lt_le_trans.
  - apply (replaceChar_length_lt c_amp (lit "&amp;")); [vm_compute; lia|exact H].
  - do 5 (etransitivity; [|apply replaceChar_length_le; discriminate]).
    reflexivity.
Qed.

Lemma sanitizeHtml_brings_amp s c :
  c ∈ escapedChars -> c ∈ s -> c_amp ∈ sanitizeHtml s.
Proof.
  intros Hc Hs. unfold sanitizeHtml, escapedChars in *.
  apply list_elem_of_In in Hc. simpl in Hc.
  destruct Hc as [<-|[<-|[<-|[<-|[<-|[<-|[]]]]]]].
  - do 5 (apply replaceChar_keeps; [|discriminate]).
    apply replaceChar_brings; [exact Hs|in_literal].
  - do 4 (apply replaceChar_keeps; [|discriminate]).
    apply replaceChar_brings; [|in_literal].
    apply replaceChar_keeps; [exact Hs|discriminate].
  - do 3 (apply replaceChar_keeps; [|discriminate]).
    apply replaceChar_brings; [|in_literal].
    do 2 (apply replaceChar_keeps; [|discriminate]). exact Hs.
  - do 2 (apply replaceChar_keeps; [|discriminate]).
    apply replaceChar_brings; [|in_literal].
    do 3 (apply replaceChar_keeps; [|discriminate]). exact Hs.
  - do 1 (apply replaceChar_keeps; [|discriminate]).
    apply replaceChar_brings; [|in_literal].
    do 4 (apply replaceChar_keeps; [|discriminate]). exact Hs.
  - apply replaceChar_brings; [|in_literal].
    do 5 (apply replaceChar_keeps; [|discriminate]). exact Hs.
Qed.

Lemma sanitizeHtml_fixes_plain s :
  (forall c, c ∈ escapedChars -> c ∉ s) -> sanitizeHtml s = s.
Proof.
  intros H. unfold sanitizeHtml.
  rewrite (replaceChar_id c_amp) by (apply H; in_literal).
  rewrite (replaceChar_id c_lt) by (apply H; in_literal).
  rewrite (replaceChar_id c_gt) by (apply H; in_literal).
  rewrite (replaceChar_id c_quot) by (apply H; in_literal).
  rewrite (replaceChar_id c_apos) by (apply H; in_literal).
  rewrite (replaceChar_id c_slash) by (apply H; in_literal).
  reflexivity.
Qed.

(** C8.  [sanitizeHtml] is not idempotent: applied to a string that
    contains one of the six escaped characters, a second application
    differs from the first, because it escapes again the [&] that the
    first one introduced.  The string ["<"] is such an input: one
    application gives ["&lt;"], two give ["&amp;lt;"]. *)
Theorem sanitizeHtml_not_idempotent :
  (exists s, sanitizeHtml (sanitizeHtml s) <> sanitizeHtml s)
  /\ (forall s c, c ∈ escapedChars -> c ∈ s ->
        sanitizeHtml (sanitizeHtml s) <> sanitizeHtml s)
  /\ sanitizeHtml (lit "<") = lit "&lt;"
  /\ sanitizeHtml (sanitizeHtml (lit "<")) = lit "&amp;lt;".
Proof.
  assert (forall s c, c ∈ escapedChars -> c ∈ s ->
            sanitizeHtml (sanitizeHtml s) <> sanitizeHtml s) as Hall.
  { intros s c Hc Hs Heq.
    pose proof (sanitizeHtml_grows (sanitizeHtml s)
                  (sanitizeHtml_brings_amp s c Hc Hs)) as Hlt.
    rewrite Heq in Hlt. lia. }
  split; [|split; [exact Hall|split; reflexivity]].
  exists (lit "<"). apply (Hall _ c_lt); in_literal.
Qed.

Lemma sanitizeHtml_not_idempotent_witness :
  c_quot ∈ escapedChars /\ c_quot ∈ [c_quot]
  /\ sanitizeHtml (sanitizeHtml [c_quot]) <> sanitizeHtml [c_quot].
Proof.
  assert (c_quot ∈ escapedChars) as H1 by in_literal.
  assert (c_quot ∈ [c_quot]) as H2 by in_literal.
  split; [exact H1|split; [exact H2|]].
  exact (proj1 (proj2 sanitizeHtml_not_idempotent) [c_quot] c_quot H1 H2).
Defined.

(** ** Password rules *)

Lemma dotStarThen_exists cls s :
  dotStarThen cls s = true -> existsb cls s = true.
Proof.
  induction s as [|c r IH]; simpl; [easy|].
  destruct (cls c); simpl; [easy|].
  intros H. apply andb_true_iff in H as [_ H]. auto.
Qed.

(** The look-ahead test [/(?=.*C)/] succeeds exactly on the strings that
    contain a code unit of the class [C]: line terminators, which [.]
    does not cross, make no difference because the search may start at
    the code unit itself. *)
Lemma testLookahead_existsb cls s :
  testLookahead cls s = existsb cls s.
Proof.
  induction s as [|c r IH]; [reflexivity|].
  change (testLookahead cls (c :: r))
    with (dotStarThen cls (c :: r) || testLookahead cls r).
  rewrite IH. simpl.
  destruct (cls c); simpl; [reflexivity|].
  destruct (existsb cls r) eqn:E; [apply orb_true_r|].
  destruct (dotStarThen cls r) eqn:D.
  - apply dotStarThen_exists in D. congruence.
  - now rewrite andb_false_r.
Qed.

Lemma firstViolation_at_most_one rules p :
  length (firstViolation rules p) <= 1.
Proof.
  induction rules as [|[holds msg] rest IH]; simpl; [lia|].
  destruct (holds p); simpl; lia.
Qed.

Lemma validatePassword_firstViolation p :
  passwordErrors (validatePassword p) = firstViolation passwordRules p.
Proof.
  unfold validatePassword, passwordRules, firstViolation.
  rewrite !testLookahead_existsb.
  destruct p as [|c r]; [reflexivity|].
  change (falsy (c :: r)) with false. cbv iota.
  change (negb (length (c :: r) =? 0)) with true. cbv iota.
  destruct (Nat.ltb_spec (length (c :: r)) 8) as [H8|H8];
    destruct (Nat.leb_spec 8 (length (c :: r))); try lia; [reflexivity|].
  destruct (Nat.ltb_spec 128 (length (c :: r))) as [H128|H128];
    destruct (Nat.leb_spec (length (c :: r)) 128); try lia; [reflexivity|].
  destruct (existsb isLower (c :: r)); [|reflexivity].
  destruct (existsb isUpper (c :: r)); [|reflexivity].
  destruct (existsb isDigit (c :: r)); reflexivity.
Qed.

(** C7.  [validatePassword] checks its rules one after the other
    (required, at least 8 code units, at most 128, a lowercase letter, an
    uppercase letter, a digit) and reports the first rule that fails, so
    it returns at most one error for every input; ["short"] gives the
    minimum-length error and ["Abcdefg1"] gives no error. *)
Theorem validatePassword_sequential_single_error :
  (forall p, passwordErrors (validatePassword p)
             = firstViolation passwordRules p)
  /\ (forall p, length (passwordErrors (validatePassword p)) <= 1)
  /\ passwordErrors (validatePassword (lit "short"))
     = [lit "Password must be at least 8 characters long"]
  /\ passwordErrors (validatePassword (lit "Abcdefg1")) = [].
Proof.
  split; [exact validatePassword_firstViolation|].
  split; [|split; reflexivity].
  intros p. rewrite validatePassword_firstViolation.
  apply firstViolation_at_most_one.
Qed.

(** ** Poll options *)

(** A [Set] built from an array has as many elements as the array exactly
    when the array has no two equal entries. *)
Lemma size_list_to_set_le (l : list jsstring) :
  size (list_to_set l : gset jsstring) <= length l.
Proof.
  induction l as [|x l IH]; [reflexivity|].
  rewrite list_to_set_cons, size_union_alt, size_singleton. simpl.
  pose proof (subseteq_size (list_to_set l ∖ {[x]} : gset jsstring)
                (list_to_set l) (subseteq_difference_l _ _ _ (reflexivity _))).
  lia.
Qed.

Lemma size_list_to_set_NoDup (l : list jsstring) :
  size (list_to_set l : gset jsstring) = length l <-> NoDup l.
Proof.
  split; [|apply size_list_to_set].
  induction l as [|x l IH]; [constructor|].
  rewrite list_to_set_cons. simpl. intros H.
  pose proof (size_list_to_set_le l) as Hle.
  destruct (decide (x ∈ l)) as [Hin|Hnin].
  - rewrite (subseteq_union_1_L ({[x]} : gset jsstring) (list_to_set l)) in H.
    + lia.
    + apply singleton_subseteq_l, elem_of_list_to_set, Hin.
  - rewrite size_union, size_singleton in H by set_solver.
    constructor; [exact Hnin|]. apply IH. lia.
Qed.

Lemma optionsLoop_cons i o rest sanitized errors :
  optionsLoop i (o :: rest) sanitized errors
  = if falsy (cleanOption o) then
      optionsLoop (S i) rest sanitized
        (errors ++ [lit "Option " ++ numToString (Z.of_nat i + 1)
                      ++ lit " cannot be empty"])
    else if 200 <? length (cleanOption o) then
      optionsLoop (S i) rest sanitized
        (errors ++ [lit "Option " ++ numToString (Z.of_nat i + 1)
                      ++ lit " must be less than 200 characters"])
    else optionsLoop (S i) rest (sanitized ++ [cleanOption o]) errors.
Proof. reflexivity. Qed.

Lemma omap_id_Some {A} (x : A) l : omap id (Some x :: l) = x :: omap id l.
Proof. reflexivity. Qed.

Lemma omap_id_None {A} (l : list (option A)) : omap id (None :: l) = omap id l.
Proof. reflexivity. Qed.

Lemma optionsLoop_spec options :
  forall i sanitized errors,
    optionsLoop i options sanitized errors
    = (sanitized ++ acceptedOptions options,
       errors ++ omap id (imap (fun j => optionError (i + j)) options)).
Proof.
  unfold acceptedOptions.
  induction options as [|o rest IH]; intros i sanitized errors.
  - cbn. now rewrite !app_nil_r.
  - rewrite imap_cons, fmap_cons, optionsLoop_cons.
    assert (imap ((fun j => optionError (i + j)) ∘ S) rest
            = imap (fun j => optionError (S i + j)) rest) as Hshift.
    { apply imap_ext. intros j x _. unfold compose. f_equal. lia. }
    rewrite Hshift, !IH, Nat.add_0_r.
    destruct (cleanOption o) as [|c r] eqn:E.
    + assert (optionError i o
              = Some (lit "Option " ++ numToString (Z.of_nat i + 1)
                        ++ lit " cannot be empty")) as ->
        by (unfold optionError; now rewrite E).
      change (falsy []) with true. cbv iota.
      rewrite omap_id_Some, filter_cons_False by (cbn; lia).
      now rewrite <- !app_assoc.
    + change (falsy (c :: r)) with false. cbv iota.
      destruct (Nat.ltb_spec 200 (length (c :: r))) as [Hlong|Hok].
      * assert (optionError i o
                = Some (lit "Option " ++ numToString (Z.of_nat i + 1)
                          ++ lit " must be less than 200 characters")) as ->.
        { unfold optionError. rewrite E.
          change (length (c :: r) =? 0) with false. cbv iota.
          destruct (Nat.ltb_spec 200 (length (c :: r))); [reflexivity|lia]. }
        rewrite omap_id_Some, filter_cons_False by lia.
        now rewrite <- !app_assoc.
      * assert (optionError i o = None) as ->.
        { unfold optionError. rewrite E.
          change (length (c :: r) =? 0) with false. cbv iota.
          destruct (Nat.ltb_spec 200 (length (c :: r))); [lia|reflexivity]. }
        rewrite omap_id_None, filter_cons_True by (cbn in *; lia).
        now rewrite <- !app_assoc.
Qed.

Lemma validatePollOptions_in_range options :
  2 <= length options <= 10 ->
  validatePollOptions options
  = mkResult (acceptedOptions options)
      (optionErrors options ++ duplicateErrors (acceptedOptions options)).
Proof.
  intros [Hlo Hhi]. unfold validatePollOptions.
  destruct (Nat.ltb_spec (length options) 2); [lia|].
  destruct (Nat.ltb_spec 10 (length options)); [lia|].
  rewrite optionsLoop_spec. simpl.
  change (omap id (imap (fun j => optionError j) options))
    with (optionErrors options).
  unfold duplicateErrors.
  destruct (decide (NoDup (acceptedOptions options))) as [Hnd|Hdup].
  - apply size_list_to_set_NoDup in Hnd. rewrite Hnd, Nat.eqb_refl. simpl.
    now rewrite app_nil_r.
  - destruct (Nat.eqb_spec
                (size (list_to_set (acceptedOptions options) : gset jsstring))
                (length (acceptedOptions options))) as [Heq|Hne].
    + now apply size_list_to_set_NoDup in Heq.
    + reflexivity.
Qed.

(** C5.  [validatePollOptions]: a list with fewer than 2 or more than 10
    entries gives exactly one error (the error about the number of
    options, no per-option error) and an empty sanitized list; for a list
    of 2 to 10 entries, each option that after [sanitizeText] and trimming
    is empty or longer than 200 code units gives one error naming its
    1-based index and is left out of the sanitized list, and one duplicate
    error is appended exactly when the sanitized list has two equal
    strings. *)
Theorem validatePollOptions_spec :
  (forall options, length options < 2 ->
     validatePollOptions options
     = mkResult [] [lit "At least 2 options are required"])
  /\ (forall options, 10 < length options ->
     validatePollOptions options
     = mkResult [] [lit "Maximum 10 options allowed"])
  /\ (forall options, 2 <= length options <= 10 ->
     sanitized (validatePollOptions options) = acceptedOptions options
     /\ errors (validatePollOptions options)
        = optionErrors options
          ++ duplicateErrors (sanitized (validatePollOptions options))).
Proof.
  split; [|split].
  - intros options H. unfold validatePollOptions.
    destruct (Nat.ltb_spec (length options) 2); [reflexivity|lia].
  - intros options H. unfold validatePollOptions.
    destruct (Nat.ltb_spec (length options) 2); [lia|].
    destruct (Nat.ltb_spec 10 (length options)); [reflexivity|lia].
  - intros options H. now rewrite validatePollOptions_in_range.
Qed.

Lemma validatePollOptions_spec_witness :
  validatePollOptions [lit "A"]
  = mkResult [] [lit "At least 2 options are required"]
  /\ validatePollOptions (replicate 11 (lit "A"))
     = mkResult [] [lit "Maximum 10 options allowed"]
  /\ errors (validatePollOptions [lit " "; lit "B"; lit "<i>B</i>"])
     = optionErrors [lit " "; lit "B"; lit "<i>B</i>"]
       ++ duplicateErrors
            (sanitized (validatePollOptions [lit " "; lit "B"; lit "<i>B</i>"])).
Proof.
  destruct validatePollOptions_spec as (Hfew & Hmany & Hrange).
  split; [apply Hfew; simpl; lia|].
  split; [apply Hmany; simpl; lia|].
  apply Hrange. simpl. lia.
Defined.

(** ** The rate limiter *)

(** A key determines its limit class and its identifier: no class name
    contains a colon, and no class name is a prefix of another. *)
Lemma storeKey_inj type1 id1 type2 id2 :
  storeKey type1 id1 = storeKey type2 id2 -> type1 = type2 /\ id1 = id2.
Proof.
  destruct type1, type2; cbv [storeKey typeName]; intros H;
    vm_compute in H;
    first [discriminate H | split; [reflexivity|congruence]].
Qed.

(** The first branch of [checkRateLimit]. *)
Lemma checkRateLimit_absent now id type store :
  store !! storeKey type id = None ->
  checkRateLimit now id type store
  = (mkLimit true (maxAttempts (RATE_LIMITS type) - 1)
       (now + windowMs (RATE_LIMITS type)),
     <[storeKey type id := freshEntry now type]> store).
Proof. intros H. unfold checkRateLimit. now rewrite H. Qed.

Lemma checkRateLimit_expired now id type store entry :
  store !! storeKey type id = Some entry ->
  (resetTime entry < now)%Z ->
  checkRateLimit now id type store
  = (mkLimit true (maxAttempts (RATE_LIMITS type) - 1)
       (now + windowMs (RATE_LIMITS type)),
     <[storeKey type id := freshEntry now type]> store).
Proof.
  intros H Hlt. unfold checkRateLimit. rewrite H.
  destruct (Z.gtb_spec now (resetTime entry)); [reflexivity|lia].
Qed.

(** The second branch: the limit is reached inside the window. *)
Lemma checkRateLimit_denied now id type store entry :
  store !! storeKey type id = Some entry ->
  (now <= resetTime entry)%Z ->
  (maxAttempts (RATE_LIMITS type) <= count entry)%Z ->
  checkRateLimit now id type store
  = (mkLimit false 0 (resetTime entry), store).
Proof.
  intros H Hwin Hmax. unfold checkRateLimit. rewrite H.
  destruct (Z.gtb_spec now (resetTime entry)); [lia|].
  destruct (Z.geb_spec (count entry) (maxAttempts (RATE_LIMITS type)));
    [reflexivity|lia].
Qed.

(** The third branch: the count is incremented. *)
Lemma checkRateLimit_counted now id type store entry :
  store !! storeKey type id = Some entry ->
  (now <= resetTime entry)%Z ->
  (count entry < maxAttempts (RATE_LIMITS type))%Z ->
  checkRateLimit now id type store
  = (mkLimit true (maxAttempts (RATE_LIMITS type) - (count entry + 1))
       (resetTime entry),
     <[storeKey type id := mkEntry (count entry + 1) (resetTime entry)]> store).
Proof.
  intros H Hwin Hmax. unfold checkRateLimit. rewrite H.
  destruct (Z.gtb_spec now (resetTime entry)); [lia|].
  destruct (Z.geb_spec (count entry) (maxAttempts (RATE_LIMITS type)));
    [lia|reflexivity].
Qed.

(** C4.  If the store has no entry under the key, or the current time is
    past the stored [resetTime], [checkRateLimit] puts under the key the
    entry with [count = 1] and [resetTime = now + windowMs] of the class,
    and returns [allowed = true] with [remaining = maxAttempts - 1]. *)
Theorem checkRateLimit_fresh_window now id type store :
  (store !! storeKey type id = None
   \/ exists entry, store !! storeKey type id = Some entry
                    /\ (now > resetTime entry)%Z) ->
  let '(result, store') := checkRateLimit now id type store in
  store' = <[storeKey type id :=
               mkEntry 1 (now + windowMs (RATE_LIMITS type))]> store
  /\ allowed result = true
  /\ remaining result = (maxAttempts (RATE_LIMITS type) - 1)%Z
  /\ resultResetTime result = (now + windowMs (RATE_LIMITS type))%Z.
Proof.
  intros [H|(entry & H & Hlt)].
  - rewrite (checkRateLimit_absent _ _ _ _ H). easy.
  - rewrite (checkRateLimit_expired _ _ _ _ _ H) by lia. easy.
Qed.

Lemma checkRateLimit_fresh_window_witness :
  let store : gmap jsstring RateLimitEntry :=
    {[ storeKey auth (lit "10.0.0.1") := mkEntry 5 1000 ]} in
  let '(result, store') := checkRateLimit 1001 (lit "10.0.0.1") auth store in
  store' = <[storeKey auth (lit "10.0.0.1") := mkEntry 1 901001]> store
  /\ allowed result = true
  /\ remaining result = 4%Z
  /\ resultResetTime result = 901001%Z.
Proof.
  apply (checkRateLimit_fresh_window 1001 (lit "10.0.0.1") auth
           {[ storeKey auth (lit "10.0.0.1") := mkEntry 5 1000 ]}).
  right. exists (mkEntry 5 1000). split; [apply lookup_singleton_eq|simpl; lia].
Defined.

(** C2.  From a store with no entry for the identifier, four calls of
    [checkRateLimit id pollCreation], the last three no later than one
    minute after the first, return: [allowed = true] with [remaining]
    2, 1 and 0 for calls 1, 2 and 3, and [allowed = false] with
    [remaining = 0] for call 4. *)
Theorem pollCreation_four_calls id store (t1 t2 t3 t4 : Z) :
  store !! storeKey pollCreation id = None ->
  (t2 <= t1 + 60 * 1000)%Z ->
  (t3 <= t1 + 60 * 1000)%Z ->
  (t4 <= t1 + 60 * 1000)%Z ->
  let '(r1, store1) := checkRateLimit t1 id pollCreation store in
  let '(r2, store2) := checkRateLimit t2 id pollCreation store1 in
  let '(r3, store3) := checkRateLimit t3 id pollCreation store2 in
  let '(r4, store4) := checkRateLimit t4 id pollCreation store3 in
  (allowed r1 = true /\ remaining r1 = 2%Z)
  /\ (allowed r2 = true /\ remaining r2 = 1%Z)
  /\ (allowed r3 = true /\ remaining r3 = 0%Z)
  /\ (allowed r4 = false /\ remaining r4 = 0%Z).
Proof.
  intros Hnone H2 H3 H4.
  rewrite (checkRateLimit_absent _ _ _ _ Hnone).
  rewrite (checkRateLimit_counted t2 id pollCreation _ (freshEntry t1 pollCreation))
    by (first [apply lookup_insert_eq | cbn; lia]).
  rewrite insert_insert_eq.
  rewrite (checkRateLimit_counted t3 id pollCreation _
             (mkEntry 2 (t1 + 60 * 1000)))
    by (first [apply lookup_insert_eq | cbn; lia]).
  rewrite insert_insert_eq.
  rewrite (checkRateLimit_denied t4 id pollCreation _
             (mkEntry 3 (t1 + 60 * 1000)))
    by (first [apply lookup_insert_eq | cbn; lia]).
  cbn. repeat split; reflexivity.
Qed.

Lemma pollCreation_four_calls_witness :
  let id := lit "203.0.113.7" in
  let '(r1, store1) := checkRateLimit 1000 id pollCreation ∅ in
  let '(r2, store2) := checkRateLimit 2000 id pollCreation store1 in
  let '(r3, store3) := checkRateLimit 30000 id pollCreation store2 in
  let '(r4, store4) := checkRateLimit 61000 id pollCreation store3 in
  (allowed r1 = true /\ remaining r1 = 2%Z)
  /\ (allowed r2 = true /\ remaining r2 = 1%Z)
  /\ (allowed r3 = true /\ remaining r3 = 0%Z)
  /\ (allowed r4 = false /\ remaining r4 = 0%Z).
Proof.
  apply (pollCreation_four_calls (lit "203.0.113.7") ∅ 1000 2000 30000 61000).
  - apply lookup_empty.
  - lia.
  - lia.
  - lia.
Defined.

Lemma wellCounted_insert store type id entry :
  wellCounted store ->
  (1 <= count entry <= maxAttempts (RATE_LIMITS type))%Z ->
  wellCounted (<[storeKey type id := entry]> store).
Proof.
  intros Hwc Hentry key e. rewrite lookup_insert.
  destruct (decide (storeKey type id = key)) as [<-|Hne].
  - intros [= <-]. now exists type, id.
  - apply Hwc.
Qed.

Lemma wellCounted_checkRateLimit now id type store :
  wellCounted store -> wellCounted (checkRateLimit now id type store).2.
Proof.
  intros Hwc.
  assert (1 <= maxAttempts (RATE_LIMITS type))%Z as Hmax
    by (destruct type; cbn; lia).
  destruct (store !! storeKey type id) as [entry|] eqn:E.
  - destruct (Z.lt_ge_cases (resetTime entry) now) as [Hexp|Hwin].
    + rewrite (checkRateLimit_expired _ _ _ _ _ E Hexp).
      apply wellCounted_insert; [exact Hwc|cbn; lia].
    + destruct (Z.lt_ge_cases (count entry) (maxAttempts (RATE_LIMITS type)))
        as [Hlow|Hfull].
      * rewrite (checkRateLimit_counted _ _ _ _ _ E Hwin Hlow).
        apply wellCounted_insert; [exact Hwc|].
        destruct (Hwc _ _ E) as (type' & id' & Hkey & Hcount).
        apply storeKey_inj in Hkey as [<- _]. cbn. lia.
      * now rewrite (checkRateLimit_denied _ _ _ _ _ E Hwin Hfull).
  - rewrite (checkRateLimit_absent _ _ _ _ E).
    apply wellCounted_insert; [exact Hwc|cbn; lia].
Qed.

Lemma wellCounted_cleanup now store :
  wellCounted store -> wellCounted (cleanupExpiredEntries now store).
Proof.
  intros Hwc key entry H. unfold cleanupExpiredEntries in H.
  apply map_lookup_filter_Some in H as [H _]. now apply Hwc.
Qed.

Lemma reachable_wellCounted store : reachable store -> wellCounted store.
Proof.
  induction 1 as [|now id type store _ IH|now store _ IH].
  - intros key entry H. now rewrite lookup_empty in H.
  - now apply wellCounted_checkRateLimit.
  - now apply wellCounted_cleanup.
Qed.

(** C3.  When [checkRateLimit] denies a request (the stored count has
    reached the maximum of the class and the window has not expired) the
    store, and so the entry with its count and [resetTime], is left as it
    was; and in every store the process can reach, every entry has a
    count between 1 and the maximum of its limit class. *)
Theorem denied_keeps_entry_and_count_bounded :
  (forall now id type store entry,
     store !! storeKey type id = Some entry ->
     (now <= resetTime entry)%Z ->
     (maxAttempts (RATE_LIMITS type) <= count entry)%Z ->
     allowed (checkRateLimit now id type store).1 = false
     /\ (checkRateLimit now id type store).2 = store
     /\ (checkRateLimit now id type store).2 !! storeKey type id = Some entry)
  /\ (forall now id type store,
     allowed (checkRateLimit now id type store).1 = false ->
     (checkRateLimit now id type store).2 = store)
  /\ (forall store, reachable store ->
     forall key entry, store !! key = Some entry ->
       exists type id, key = storeKey type id
         /\ (1 <= count entry <= maxAttempts (RATE_LIMITS type))%Z).
Proof.
  split; [|split].
  - intros now id type store entry E Hwin Hfull.
    now rewrite (checkRateLimit_denied _ _ _ _ _ E Hwin Hfull).
  - intros now id type store. unfold checkRateLimit.
    destruct (store !! storeKey type id) as [entry|]; [|discriminate].
    destruct (now >? resetTime entry)%Z; [discriminate|].
    destruct (count entry >=? maxAttempts (RATE_LIMITS type))%Z;
      [reflexivity|discriminate].
  - exact reachable_wellCounted.
Qed.

Lemma denied_keeps_entry_and_count_bounded_witness :
  let id := lit "203.0.113.7" in
  let store : gmap jsstring RateLimitEntry :=
    {[ storeKey pollCreation id := mkEntry 3 61000 ]} in
  (allowed (checkRateLimit 50000 id pollCreation store).1 = false
   /\ (checkRateLimit 50000 id pollCreation store).2 = store
   /\ (checkRateLimit 50000 id pollCreation store).2
        !! storeKey pollCreation id = Some (mkEntry 3 61000))
  /\ (exists type id',
        storeKey api id = storeKey type id'
        /\ (1 <= count (mkEntry 1 61000) <= maxAttempts (RATE_LIMITS type))%Z).
Proof.
  destruct denied_keeps_entry_and_count_bounded as (Hdenied & _ & Hinv).
  split.
  - apply Hdenied; [apply lookup_singleton_eq|cbn; lia|cbn; lia].
  - apply (Hinv (checkRateLimit 1000 (lit "203.0.113.7") api ∅).2).
    + apply reach_check, reach_init.
    + rewrite checkRateLimit_absent by apply lookup_empty.
      apply lookup_insert_eq.
Defined.

(** ** The rate-limit middleware *)

Lemma getHeader_setHeader_same name value h :
  getHeader name (setHeader name value h) = Some value.
Proof. apply lookup_insert_eq. Qed.

Lemma getHeader_setHeader_other name name' value h :
  asciiLower name' <> asciiLower name ->
  getHeader name (setHeader name' value h) = getHeader name h.
Proof. intros H. now apply lookup_insert_ne. Qed.

(** C10.  Whatever limit class is passed to [withRateLimit] (or none,
    which means [api]) and whatever the request, the response carries
    [X-RateLimit-Limit: 5]: on the 429 response of a denied request and
    on the handler's response of an admitted one, although [pollCreation]
    allows 3 attempts and [api] allows 30. *)
Theorem withRateLimit_limit_header_is_five :
  (forall (NextRequest : Type) (requestHeaders : NextRequest -> Headers)
          (handler : Handler NextRequest)
          (rateLimitType : option RateLimitType) (now now1 now2 : Z)
          (req : NextRequest) (store : gmap jsstring RateLimitEntry),
     let response :=
       (withRateLimit NextRequest requestHeaders handler rateLimitType
          now now1 now2 req store).1 in
     let limit :=
       (checkRateLimit now (getClientIP (requestHeaders req))
          (default api rateLimitType) store) in
     getHeader (lit "X-RateLimit-Limit") (headers response) = Some (lit "5")
     /\ (if allowed limit.1 then
           status response = status (handler req limit.2).1
         else status response = 429%Z))
  /\ maxAttempts (RATE_LIMITS auth) = 5%Z
  /\ maxAttempts (RATE_LIMITS pollCreation) = 3%Z
  /\ maxAttempts (RATE_LIMITS api) = 30%Z.
Proof.
  split; [|repeat split; reflexivity].
  intros NextRequest requestHeaders handler rateLimitType now now1 now2
    req store.
  cbv zeta. unfold withRateLimit.
  destruct (checkRateLimit now (getClientIP (requestHeaders req))
              (default api rateLimitType) store) as [limit store1].
  cbn [fst snd].
  destruct (allowed limit); cbn [negb].
  - destruct (handler req store1) as [response store2]. cbn [fst headers status].
    split; [|reflexivity].
    rewrite !getHeader_setHeader_other by (vm_compute; discriminate).
    apply getHeader_setHeader_same.
  - cbn [fst headers status]. split; [|reflexivity].
    rewrite !getHeader_setHeader_other by (vm_compute; discriminate).
    apply getHeader_setHeader_same.
Qed.

(** ** The authentication handlers *)

Section AuthHandlers.

Variable toLowerCase : jsstring -> jsstring.
Variable signInWithPassword : jsstring -> jsstring -> option AuthError.
Variable signUp : jsstring -> jsstring -> jsstring -> option AuthError.

(** When the platform call of [login] fails, the caller sees the fixed
    message and nothing of the platform's error. *)
Lemma login_platform_error_generic data e :
  errors (validateEmail toLowerCase (loginEmail data)) = [] ->
  passwordErrors (validatePassword (loginPassword data)) = [] ->
  signInWithPassword
    (sanitized (validateEmail toLowerCase (loginEmail data)))
    (loginPassword data) = Some e ->
  login toLowerCase signInWithPassword data
  = mkAction (Some (lit "Invalid email or password")).
Proof.
  intros Hemail Hpassword Hplatform. unfold login.
  now rewrite Hemail, Hpassword, Hplatform.
Qed.

Lemma register_platform_error_generic data e :
  errors (validateEmail toLowerCase (registerEmail data)) = [] ->
  passwordErrors (validatePassword (registerPassword data)) = [] ->
  errors (validateName (registerName data)) = [] ->
  signUp
    (sanitized (validateEmail toLowerCase (registerEmail data)))
    (registerPassword data)
    (sanitized (validateName (registerName data))) = Some e ->
  register toLowerCase signUp data
  = mkAction (Some (lit "Failed to create account. Please try again.")).
Proof.
  intros Hemail Hpassword Hname Hplatform. unfold register.
  now rewrite Hemail, Hpassword, Hname, Hplatform.
Qed.

End AuthHandlers.

(** [logout] hands the platform's message on as it is. *)
Lemma logout_platform_error e :
  logout (Some e) = mkAction (Some (message e)).
Proof. reflexivity. Qed.

(** C1.  No handler should let the text of a platform error reach the
    caller.  [login] and [register] keep to it (the two lemmas above);
    [logout] does not: when the platform's [signOut] fails with the
    message ["Auth session missing!"], [logout] returns exactly that
    message as its error. *)
Theorem logout_returns_platform_message :
  error (logout (Some (mkAuthError (lit "Auth session missing!")
                         (lit "session_not_found") 400)))
  = Some (lit "Auth session missing!").
Proof. reflexivity. Qed.

(** ** Deleting a poll *)

(** C9.  [deletePoll] called by an identity that is not the owner of the
    poll (an unauthenticated caller, or an id different from [ownerId], or
    a poll that does not exist) fails with [Forbidden]; the polls are left
    as they were and no mutating call was made to the platform. *)
Theorem deletePoll_non_owner_forbidden
    (actor : option jsstring) (id : jsstring) (db : gmap jsstring Poll) :
  (forall uid poll,
     actor = Some uid -> db !! id = Some poll -> uid <> ownerId poll) ->
  result (deletePoll actor id db) = Some Forbidden
  /\ polls (deletePoll actor id db) = db
  /\ Forall (fun c => isMutation c = false) (calls (deletePoll actor id db)).
Proof.
  intros Hother. unfold deletePoll.
  assert (forall c, Forall (fun c => isMutation c = false) [FetchOwner c])
    as Hfetch by (intros c; now repeat constructor).
  assert (forall outcome, outcome = mkOutcome (Some Forbidden) db [FetchOwner id] ->
            result outcome = Some Forbidden /\ polls outcome = db
            /\ Forall (fun c => isMutation c = false) (calls outcome))
    as Hdeny by (intros ? ->; split; [|split]; [reflexivity|reflexivity|apply Hfetch]).
  destruct actor as [uid|];
    [|apply Hdeny; now destruct (ownerId <$> db !! id)].
  destruct (db !! id) as [poll|] eqn:E; [|now apply Hdeny].
  change (ownerId <$> Some poll) with (Some (ownerId poll)). cbv iota beta.
  destruct (bool_decide_reflect (uid = ownerId poll)) as [Heq|Hne];
    [|now apply Hdeny].
  now destruct (Hother uid poll eq_refl eq_refl).
Qed.

Lemma deletePoll_non_owner_forbidden_witness :
  let db : gmap jsstring Poll :=
    {[ lit "poll-1" := mkPoll (lit "alice") (lit "Tabs or spaces?")
                         [lit "Tabs"; lit "Spaces"] ]} in
  result (deletePoll (Some (lit "bob")) (lit "poll-1") db) = Some Forbidden
  /\ polls (deletePoll (Some (lit "bob")) (lit "poll-1") db) = db
  /\ Forall (fun c => isMutation c = false)
       (calls (deletePoll (Some (lit "bob")) (lit "poll-1") db)).
Proof.
  apply (deletePoll_non_owner_forbidden (Some (lit "bob")) (lit "poll-1")).
  intros uid poll [= <-] Hpoll.
  rewrite lookup_singleton_eq in Hpoll. injection Hpoll as <-.
  vm_compute. discriminate.
Defined.

(** * Further properties *)

(** ** Escaping in one pass *)

Lemma replaceChar_app c by_ s t :
  replaceChar c by_ (s ++ t) = replaceChar c by_ s ++ replaceChar c by_ t.
Proof. apply flat_map_app. Qed.

Lemma sanitizeHtml_app s t :
  sanitizeHtml (s ++ t) = sanitizeHtml s ++ sanitizeHtml t.
Proof. unfold sanitizeHtml. now rewrite !replaceChar_app. Qed.

Lemma not_elem_of_singleton_ne (x c : N) : x <> c -> c ∉ [x].
Proof. intros H Hin. apply list_elem_of_singleton in Hin. congruence. Qed.

Lemma sanitizeHtml_char c : sanitizeHtml [c] = escapeHtmlChar c.
Proof.
  unfold escapeHtmlChar.
  repeat (match goal with
          | |- context [(c =? ?x)%N] =>
              destruct (N.eqb_spec c x) as [->|?]; [reflexivity|]
          end).
  unfold sanitizeHtml.
  rewrite (replaceChar_id c_amp _ [c]) by now apply not_elem_of_singleton_ne.
  rewrite (replaceChar_id c_lt _ [c]) by now apply not_elem_of_singleton_ne.
  rewrite (replaceChar_id c_gt _ [c]) by now apply not_elem_of_singleton_ne.
  rewrite (replaceChar_id c_quot _ [c]) by now apply not_elem_of_singleton_ne.
  rewrite (replaceChar_id c_apos _ [c]) by now apply not_elem_of_singleton_ne.
  now rewrite (replaceChar_id c_slash _ [c])
    by now apply not_elem_of_singleton_ne.
Qed.

Lemma sanitizeHtml_flat_map s : sanitizeHtml s = flat_map escapeHtmlChar s.
Proof.
  induction s as [|c s IH]; [reflexivity|].
  change (c :: s) with ([c] ++ s).
  now rewrite sanitizeHtml_app, sanitizeHtml_char, IH.
Qed.

(** X1.  The six replacements of [sanitizeHtml], made one after the other
    with the ampersand first, amount to one pass that replaces each code
    unit of the input by its entity; so the output of a concatenation is
    the concatenation of the outputs. *)
Theorem sanitizeHtml_single_pass :
  (forall s, sanitizeHtml s = flat_map escapeHtmlChar s)
  /\ (forall s t, sanitizeHtml (s ++ t) = sanitizeHtml s ++ sanitizeHtml t).
Proof. split; [exact sanitizeHtml_flat_map|exact sanitizeHtml_app]. Qed.

(** ** Escaping loses nothing *)

Lemma unescapeFrom_skip p t :
  unescapeFrom (length p) (p ++ t) = unescapeFrom 0 t.
Proof. induction p as [|x p IH]; [reflexivity|exact IH]. Qed.

Lemma unescapeFrom_char c t :
  unescapeFrom 0 (escapeHtmlChar c ++ t) = c :: unescapeFrom 0 t.
Proof.
  unfold escapeHtmlChar.
  destruct (N.eqb_spec c c_amp) as [->|Hamp];
    [exact (f_equal (cons c_amp) (unescapeFrom_skip (lit "amp;") t))|].
  destruct (N.eqb_spec c c_lt) as [->|?];
    [exact (f_equal (cons c_lt) (unescapeFrom_skip (lit "lt;") t))|].
  destruct (N.eqb_spec c c_gt) as [->|?];
    [exact (f_equal (cons c_gt) (unescapeFrom_skip (lit "gt;") t))|].
  destruct (N.eqb_spec c c_quot) as [->|?];
    [exact (f_equal (cons c_quot) (unescapeFrom_skip (lit "quot;") t))|].
  destruct (N.eqb_spec c c_apos) as [->|?];
    [exact (f_equal (cons c_apos) (unescapeFrom_skip (lit "#x27;") t))|].
  destruct (N.eqb_spec c c_slash) as [->|?];
    [exact (f_equal (cons c_slash) (unescapeFrom_skip (lit "#x2F;") t))|].
  change ([c] ++ t) with (c :: t). cbn [unescapeFrom].
  now destruct (N.eqb_spec c c_amp).
Qed.

Lemma unescapeHtml_sanitizeHtml s : unescapeHtml (sanitizeHtml s) = s.
Proof.
  rewrite sanitizeHtml_flat_map. unfold unescapeHtml.
  induction s as [|c s IH]; [reflexivity|].
  cbn [flat_map]. now rewrite unescapeFrom_char, IH.
Qed.

(** X2.  [sanitizeHtml] loses nothing: reading the six entities back
    gives the input again, so two different inputs never have the same
    output. *)
Theorem sanitizeHtml_injective :
  (forall s, unescapeHtml (sanitizeHtml s) = s)
  /\ (forall s t, sanitizeHtml s = sanitizeHtml t -> s = t).
Proof.
  split; [exact unescapeHtml_sanitizeHtml|].
  intros s t H.
  now rewrite <- (unescapeHtml_sanitizeHtml s), H, unescapeHtml_sanitizeHtml.
Qed.

Lemma sanitizeHtml_injective_witness :
  sanitizeHtml (lit "a&b") = sanitizeHtml (lit "a&b")
  /\ lit "a&b" = lit "a&b".
Proof.
  split; [reflexivity|].
  apply (proj2 sanitizeHtml_injective (lit "a&b") (lit "a&b")). reflexivity.
Defined.

(** ** Size of the output, and the inputs left alone *)

Lemma escapeHtmlChar_length c :
  1 <= length (escapeHtmlChar c) <= 6.
Proof.
  unfold escapeHtmlChar.
  repeat (match goal with
          | |- context [(c =? ?x)%N] =>
              destruct (c =? x)%N; [vm_compute; lia|]
          end).
  cbn; lia.
Qed.

Lemma sanitizeHtml_length s :
  length s <= length (sanitizeHtml s) <= 6 * length s.
Proof.
  rewrite sanitizeHtml_flat_map.
  induction s as [|c s IH]; [cbn; lia|].
  cbn [flat_map]. rewrite length_app. cbn [length].
  pose proof (escapeHtmlChar_length c). lia.
Qed.

(** X3.  The output of [sanitizeHtml] is at least as long as the input
    and at most six times as long; and [sanitizeHtml] returns its input
    unchanged exactly when the input has none of the six characters it
    escapes (ampersand, angle brackets, the two quotes, slash). *)
Theorem sanitizeHtml_length_and_fixed_points (s : jsstring) :
  (length s <= length (sanitizeHtml s) <= 6 * length s)
  /\ (sanitizeHtml s = s <-> forall c, c ∈ escapedChars -> c ∉ s).
Proof.
  split; [apply sanitizeHtml_length|]. split.
  - intros Hfix c Hc Hs.
    pose proof (sanitizeHtml_brings_amp s c Hc Hs) as Hamp.
    rewrite Hfix in Hamp. apply sanitizeHtml_grows in Hamp.
    rewrite Hfix in Hamp. lia.
  - apply sanitizeHtml_fixes_plain.
Qed.

Lemma sanitizeHtml_length_and_fixed_points_witness :
  sanitizeHtml (lit "Tabs or spaces?") = lit "Tabs or spaces?".
Proof.
  apply (proj2 (sanitizeHtml_length_and_fixed_points (lit "Tabs or spaces?"))).
  intros c Hc. apply list_elem_of_In in Hc. cbn in Hc.
  destruct Hc as [<-|[<-|[<-|[<-|[<-|[<-|[]]]]]]]; not_in_literal.
Defined.

(** X4.  Besides the angle brackets, the output of [sanitizeHtml] has no
    double quote, no apostrophe and no slash, and the output of
    [sanitizeText] has no double quote and no apostrophe. *)
Theorem sanitize_output_has_no_quotes (s : jsstring) :
  ((c_quot ∉ sanitizeHtml s) /\ (c_apos ∉ sanitizeHtml s)
   /\ (c_slash ∉ sanitizeHtml s))
  /\ ((c_quot ∉ sanitizeText s) /\ (c_apos ∉ sanitizeText s)).
Proof.
  unfold sanitizeHtml, sanitizeText. repeat split.
  - do 2 (apply replaceChar_absent; [|not_in_literal]).
    apply replaceChar_removes. not_in_literal.
  - do 1 (apply replaceChar_absent; [|not_in_literal]).
    apply replaceChar_removes. not_in_literal.
  - apply replaceChar_removes. not_in_literal.
  - do 1 (apply replaceChar_absent; [|not_in_literal]).
    apply replaceChar_removes. not_in_literal.
  - apply replaceChar_removes. not_in_literal.
Qed.

(** ** Tag stripping *)

Lemma strip_tags_cons c r :
  strip_tags (c :: r)
  = match match_tag (c :: r) with
    | Some rest => strip_tags rest
    | None => c :: strip_tags r
    end.
Proof.
  simp strip_tags. generalize (inspect (match_tag (c :: r))).
  intros [o e].
  transitivity (match o with
                | Some rest => strip_tags rest
                | None => c :: strip_tags r
                end); [|now rewrite e].
  destruct o; now simp strip_tags.
Qed.

Lemma after_gt_None s : after_gt s = None <-> c_gt ∉ s.
Proof.
  induction s as [|c s IH]; cbn [after_gt].
  - split; [intros _; apply not_elem_of_nil|reflexivity].
  - rewrite not_elem_of_cons. destruct (N.eqb_spec c c_gt) as [->|Hne].
    + split; [discriminate|intros [H _]; congruence].
    + rewrite IH. split; [intros H; split; [congruence|exact H]|tauto].
Qed.

Lemma after_gt_Some s r :
  after_gt s = Some r -> exists p, s = p ++ c_gt :: r /\ c_gt ∉ p.
Proof.
  induction s as [|c s IH]; cbn [after_gt]; [discriminate|].
  destruct (N.eqb_spec c c_gt) as [->|Hne].
  - intros [= ->]. exists []. split; [reflexivity|apply not_elem_of_nil].
  - intros H. destruct (IH H) as (p & -> & Hp). exists (c :: p).
    split; [reflexivity|]. apply not_elem_of_cons. split; [congruence|exact Hp].
Qed.

Lemma match_tag_Some s rest :
  match_tag s = Some rest ->
  exists p, s = c_lt :: p ++ c_gt :: rest /\ c_gt ∉ p.
Proof.
  destruct s as [|c r]; cbn [match_tag]; [discriminate|].
  destruct (N.eqb_spec c c_lt) as [->|]; [|discriminate].
  intros H. destruct (after_gt_Some _ _ H) as (p & -> & Hp). now exists p.
Qed.

Lemma strip_tags_sublist s : strip_tags s `sublist_of` s.
Proof.
  remember (length s) as n eqn:Hn. revert s Hn.
  induction n as [n IH] using lt_wf_ind. intros [|c r] Hn.
  - simp strip_tags. constructor.
  - rewrite strip_tags_cons. destruct (match_tag (c :: r)) as [rest|] eqn:E.
    + destruct (match_tag_Some _ _ E) as (p & Hs & _).
      rewrite Hs.
      replace (c_lt :: p ++ c_gt :: rest)
        with ((c_lt :: p ++ [c_gt]) ++ rest)
        by (cbn; now rewrite <- app_assoc).
      apply sublist_inserts_l.
      apply (IH (length rest)); [|reflexivity].
      subst n. rewrite Hs. cbn. rewrite length_app. cbn. lia.
    + apply sublist_skip. apply (IH (length r)); [subst n; cbn; lia|reflexivity].
Qed.

Lemma strip_tags_elem x s : x ∈ strip_tags s -> x ∈ s.
Proof. intros H. exact (elem_of_sublist _ _ _ H (strip_tags_sublist s)). Qed.

Lemma strip_tags_tagFree s : tagFree (strip_tags s).
Proof.
  remember (length s) as n eqn:Hn. revert s Hn.
  induction n as [n IH] using lt_wf_ind. intros [|c r] Hn.
  - simp strip_tags. intros p u H.
    symmetry in H. apply app_eq_nil in H as [_ ->]. reflexivity.
  - rewrite strip_tags_cons. destruct (match_tag (c :: r)) as [rest|] eqn:E.
    + destruct (match_tag_Some _ _ E) as (q & Hs & _).
      apply (IH (length rest)); [|reflexivity].
      subst n. rewrite Hs. cbn. rewrite length_app. cbn. lia.
    + intros p u H. destruct p as [|c' p].
      * cbn in H. subst u. cbn [match_tag] in *.
        destruct (c =? c_lt)%N; [|reflexivity].
        apply after_gt_None. intros Hin.
        apply after_gt_None in E. apply E. now apply strip_tags_elem.
      * injection H as _ H.
        apply (IH (length r)) with (s := r) (p := p);
          [subst n; cbn; lia|reflexivity|exact H].
Qed.

Lemma strip_tags_fixed t : tagFree t -> strip_tags t = t.
Proof.
  induction t as [|c r IH]; intros H; [now simp strip_tags|].
  rewrite strip_tags_cons, (H [] (c :: r) eq_refl). f_equal. apply IH.
  intros p u ->. apply (H (c :: p)). reflexivity.
Qed.

Lemma tagFree_no_lt s : c_lt ∉ s -> tagFree s.
Proof.
  intros Hs p u ->. destruct u as [|c r]; [reflexivity|]. cbn [match_tag].
  destruct (N.eqb_spec c c_lt) as [->|]; [|reflexivity].
  exfalso. apply Hs. apply elem_of_app. right. left.
Qed.

(** X5.  The removal of tags in [sanitizeText] only deletes code units,
    and it is complete in one pass: in what is left the tag pattern
    matches nowhere, so a second removal changes nothing; a string
    without [<] is left as it is. *)
Theorem strip_tags_complete :
  (forall s, strip_tags s `sublist_of` s)
  /\ (forall s, tagFree (strip_tags s))
  /\ (forall s, strip_tags (strip_tags s) = strip_tags s)
  /\ (forall s, c_lt ∉ s -> strip_tags s = s).
Proof.
  split; [exact strip_tags_sublist|].
  split; [exact strip_tags_tagFree|].
  split.
  - intros s. apply strip_tags_fixed, strip_tags_tagFree.
  - intros s H. apply strip_tags_fixed, tagFree_no_lt, H.
Qed.

Lemma strip_tags_complete_witness :
  strip_tags (lit "tabs > spaces") = lit "tabs > spaces".
Proof.
  apply (proj2 (proj2 (proj2 strip_tags_complete))). not_in_literal.
Defined.

(** ** Trimming *)

Lemma trimStart_elem x s : x ∈ trimStart s -> x ∈ s.
Proof.
  induction s as [|c s IH]; cbn [trimStart]; [easy|].
  destruct (isWhiteSpace c); [|easy]. intros H. right. now apply IH.
Qed.

Lemma trimStart_keeps x s :
  x ∈ s -> isWhiteSpace x = false -> x ∈ trimStart s.
Proof.
  intros Hx Hws. induction s as [|c s IH]; cbn [trimStart]; [easy|].
  destruct (isWhiteSpace c) eqn:E; [|easy].
  apply elem_of_cons in Hx as [->|Hx]; [congruence|now apply IH].
Qed.

Lemma elem_of_rev (x : N) s : x ∈ rev s <-> x ∈ s.
Proof. rewrite !list_elem_of_In. symmetry. apply in_rev. Qed.

Lemma trim_elem x s : x ∈ trim s -> x ∈ s.
Proof.
  unfold trim, trimEnd. intros H.
  apply elem_of_rev, trimStart_elem, elem_of_rev, trimStart_elem in H.
  exact H.
Qed.

Lemma trim_keeps x s : x ∈ s -> isWhiteSpace x = false -> x ∈ trim s.
Proof.
  intros Hx Hws. unfold trim, trimEnd.
  apply elem_of_rev, trimStart_keeps; [|exact Hws].
  apply elem_of_rev, trimStart_keeps; [exact Hx|exact Hws].
Qed.

Lemma trimStart_head s c r : trimStart s = c :: r -> isWhiteSpace c = false.
Proof.
  induction s as [|x s IH]; cbn [trimStart]; [discriminate|].
  destruct (isWhiteSpace x) eqn:E; [exact IH|]. now intros [= <- _].
Qed.

Lemma trimStart_app a b :
  trimStart (a ++ b)
  = if forallb isWhiteSpace a then trimStart b else trimStart a ++ b.
Proof.
  induction a as [|x a IH]; [reflexivity|].
  cbn [app trimStart forallb]. destruct (isWhiteSpace x); [exact IH|reflexivity].
Qed.

Lemma trimStart_nil s : trimStart s = [] <-> forallb isWhiteSpace s = true.
Proof.
  induction s as [|x s IH]; cbn [trimStart forallb]; [easy|].
  destruct (isWhiteSpace x); [exact IH|easy].
Qed.

Lemma forallb_rev (f : N -> bool) l : forallb f (rev l) = forallb f l.
Proof.
  induction l as [|x l IH]; [reflexivity|].
  cbn [rev forallb]. rewrite forallb_app, IH. cbn [forallb].
  now rewrite andb_true_r, andb_comm.
Qed.

(** Trailing white space goes, the rest stays in place. *)
Lemma trimEnd_cons c r :
  trimEnd (c :: r)
  = if forallb isWhiteSpace (c :: r) then [] else c :: trimEnd r.
Proof.
  unfold trimEnd. cbn [rev]. rewrite trimStart_app.
  rewrite forallb_rev. cbn [forallb].
  destruct (forallb isWhiteSpace r) eqn:Hr.
  - assert (trimStart (rev r) = []) as Hnil
      by (apply trimStart_nil; now rewrite forallb_rev).
    rewrite Hnil, andb_true_r. cbn [trimStart].
    destruct (isWhiteSpace c); reflexivity.
  - rewrite andb_false_r, rev_app_distr. reflexivity.
Qed.

Lemma trim_head s c r : trim s = c :: r -> isWhiteSpace c = false.
Proof.
  unfold trim. destruct (trimStart s) as [|x t] eqn:E; [discriminate|].
  rewrite trimEnd_cons. destruct (forallb isWhiteSpace (x :: t)); [discriminate|].
  intros [= <- _]. exact (trimStart_head _ _ _ E).
Qed.

Lemma trim_last s c : last (trim s) = Some c -> isWhiteSpace c = false.
Proof.
  unfold trim, trimEnd.
  destruct (trimStart (rev (trimStart s))) as [|x t] eqn:E; [discriminate|].
  cbn [rev]. rewrite last_snoc. intros [= <-]. exact (trimStart_head _ _ _ E).
Qed.

Lemma trim_length s : length (trim s) <= length s.
Proof.
  assert (forall t, length (trimStart t) <= length t) as Hstart.
  { induction t as [|x t IH]; cbn [trimStart]; [lia|].
    destruct (isWhiteSpace x); cbn; lia. }
  unfold trim, trimEnd. rewrite length_rev.
  etransitivity; [apply Hstart|]. rewrite length_rev. apply Hstart.
Qed.

(** ** Poll questions *)

(** X6.  [validatePollQuestion] reports at most one error; it reports
    none exactly when the sanitized question has 5 to 500 code units; and
    the sanitized question never contains an angle bracket and never
    begins or ends with white space. *)
Theorem validatePollQuestion_result (question : jsstring) :
  let r := validatePollQuestion question in
  length (errors r) <= 1
  /\ (errors r = [] <-> 5 <= length (sanitized r) <= 500)
  /\ ((c_lt ∉ sanitized r) /\ (c_gt ∉ sanitized r))
  /\ (forall c, head (sanitized r) = Some c \/ last (sanitized r) = Some c ->
        isWhiteSpace c = false).
Proof.
  cbv zeta. unfold validatePollQuestion. cbn [errors sanitized].
  set (s := trim (sanitizeText question)).
  split; [|split; [|split; [split|]]].
  - destruct s; cbn [falsy]; [cbn; lia|].
    destruct (_ <? 5); [cbn; lia|]. destruct (500 <? _); cbn; lia.
  - destruct s as [|c r] eqn:E; cbn [falsy].
    + split; [discriminate|cbn; lia].
    + destruct (Nat.ltb_spec (length (c :: r)) 5);
        [split; [discriminate|lia]|].
      destruct (Nat.ltb_spec 500 (length (c :: r)));
        [split; [discriminate|lia]|].
      split; [lia|reflexivity].
  - intros H. now apply trim_elem, sanitizeText_no_lt in H.
  - intros H. now apply trim_elem, sanitizeText_no_gt in H.
  - intros c [H|H].
    + subst s. destruct (trim (sanitizeText question)) as [|x t] eqn:E;
        [discriminate|]. injection H as ->. exact (trim_head _ _ _ E).
    + exact (trim_last _ _ H).
Qed.

Lemma validatePollQuestion_result_witness :
  isWhiteSpace 87 = false.
Proof.
  apply (proj2 (proj2 (proj2
           (validatePollQuestion_result (lit "  What is your name? "))))).
  left. reflexivity.
Defined.

(** ** Names *)

Lemma sanitizeText_apos_amp name :
  c_apos ∈ strip_tags name -> c_amp ∈ sanitizeText name.
Proof.
  intros H. unfold sanitizeText.
  apply replaceChar_brings; [|in_literal].
  do 4 (apply replaceChar_keeps; [|discriminate]). exact H.
Qed.

(** X7.  [validateName] rejects every name with an apostrophe (one that
    is not inside a stripped tag), although its own error message lists
    apostrophes among the characters a name may contain: [sanitizeText]
    has turned the apostrophe into an entity before the pattern is
    tested. *)
Theorem validateName_rejects_apostrophe (name : jsstring) :
  c_apos ∈ strip_tags name ->
  exists e, errors (validateName name) = [e].
Proof.
  intros H. apply sanitizeText_apos_amp in H.
  apply (trim_keeps c_amp) in H; [|reflexivity].
  unfold validateName. cbn [errors].
  destruct (trim (sanitizeText name)) as [|c r] eqn:E;
    [now apply elem_of_nil in H|].
  cbn [falsy].
  destruct (_ <? 2); [eauto|]. destruct (100 <? _); [eauto|].
  assert (nameShape (c :: r) = false) as ->; [|cbn; eauto].
  unfold nameShape. cbn [falsy negb andb].
  apply not_true_is_false. intros Hall.
  rewrite forallb_forall in Hall.
  apply list_elem_of_In, Hall in H. discriminate H.
Qed.

Lemma validateName_rejects_apostrophe_witness :
  exists e, errors (validateName (lit "O'Brien")) = [e].
Proof.
  apply (validateName_rejects_apostrophe (lit "O'Brien")). in_literal.
Defined.

(** ** Passwords *)

(** X8.  [validatePassword] accepts a password exactly when it has 8 to
    128 code units and contains a lowercase letter, an uppercase letter
    and a digit (of the ASCII ranges). *)
Theorem validatePassword_accepts (password : jsstring) :
  passwordErrors (validatePassword password) = []
  <-> (8 <= length password <= 128
       /\ (exists c, c ∈ password /\ isLower c = true)
       /\ (exists c, c ∈ password /\ isUpper c = true)
       /\ (exists c, c ∈ password /\ isDigit c = true)).
Proof.
  assert (forall cls, existsb cls password = true
                      <-> exists c, c ∈ password /\ cls c = true) as Hex.
  { intros cls. rewrite existsb_exists.
    split; intros (c & Hc & Hcls); exists c; split;
      solve [now apply list_elem_of_In | exact Hcls]. }
  rewrite <- !Hex, validatePassword_firstViolation.
  unfold passwordRules, firstViolation.
  destruct (Nat.eqb_spec (length password) 0);
    cbn [negb]; [split; [discriminate|lia]|].
  destruct (Nat.leb_spec 8 (length password)); [|split; [discriminate|lia]].
  destruct (Nat.leb_spec (length password) 128); [|split; [discriminate|lia]].
  destruct (existsb isLower password); [|split; [discriminate|easy]].
  destruct (existsb isUpper password); [|split; [discriminate|easy]].
  destruct (existsb isDigit password); [|split; [discriminate|easy]].
  easy.
Qed.

(** ** Accepted poll options *)

Lemma optionError_None i o :
  optionError i o = None <-> 1 <= length (cleanOption o) <= 200.
Proof.
  unfold optionError. destruct (cleanOption o) as [|c r].
  - cbn. split; [discriminate|lia].
  - change (length (c :: r) =? 0) with false. cbv iota.
    destruct (Nat.ltb_spec 200 (length (c :: r)));
      (split; [try discriminate; cbn in *; lia|try reflexivity; lia]).
Qed.

Lemma optionErrors_from_nil options : forall i,
  omap id (imap (fun j => optionError (i + j)) options) = []
  <-> Forall (fun o => 1 <= length (cleanOption o) <= 200) options.
Proof.
  induction options as [|o rest IH]; intros i.
  - split; [constructor|reflexivity].
  - rewrite imap_cons, Forall_cons, Nat.add_0_r.
    assert (imap ((fun j => optionError (i + j)) ∘ S) rest
            = imap (fun j => optionError (S i + j)) rest) as ->.
    { apply imap_ext. intros j x _. unfold compose. f_equal. lia. }
    rewrite <- IH, <- (optionError_None i o).
    destruct (optionError i o) as [e|].
    + rewrite omap_id_Some. split; [discriminate|intros [? _]; discriminate].
    + rewrite omap_id_None.
      split; [intros H; split; [reflexivity|exact H]|intros [_ H]; exact H].
Qed.

Lemma acceptedOptions_all options :
  Forall (fun o => 1 <= length (cleanOption o) <= 200) options ->
  acceptedOptions options = cleanOption <$> options.
Proof.
  unfold acceptedOptions. induction 1 as [|o rest Ho _ IH]; [reflexivity|].
  rewrite fmap_cons, filter_cons_True by exact Ho. now rewrite IH.
Qed.

(** X9.  [validatePollOptions] reports no error exactly when there are 2
    to 10 options, each of which has 1 to 200 code units after
    [sanitizeText] and trimming, no two of them equal after that; and
    then its sanitized list is the list of all the cleaned options, in
    order, none of which contains an angle bracket. *)
Theorem validatePollOptions_accepts (options : list jsstring) :
  (errors (validatePollOptions options) = []
   <-> (2 <= length options <= 10
        /\ Forall (fun o => 1 <= length (cleanOption o) <= 200) options
        /\ NoDup (cleanOption <$> options)))
  /\ (errors (validatePollOptions options) = [] ->
      sanitized (validatePollOptions options) = cleanOption <$> options
      /\ Forall (fun o => (c_lt ∉ o) /\ (c_gt ∉ o))
           (sanitized (validatePollOptions options))).
Proof.
  assert (errors (validatePollOptions options) = [] ->
          2 <= length options <= 10
          /\ Forall (fun o => 1 <= length (cleanOption o) <= 200) options
          /\ NoDup (cleanOption <$> options)
          /\ sanitized (validatePollOptions options) = cleanOption <$> options)
    as Hleft.
  { intros Hnil.
    assert (2 <= length options <= 10) as Hrange.
    { unfold validatePollOptions in Hnil.
      destruct (Nat.ltb_spec (length options) 2); [discriminate Hnil|].
      destruct (Nat.ltb_spec 10 (length options)); [discriminate Hnil|]. lia. }
    rewrite (validatePollOptions_in_range _ Hrange) in *.
    cbn [errors sanitized] in *.
    apply app_eq_nil in Hnil as [Herr Hdup].
    apply (optionErrors_from_nil options 0) in Herr.
    rewrite (acceptedOptions_all _ Herr) in *.
    unfold duplicateErrors in Hdup.
    destruct (decide (NoDup (cleanOption <$> options))); [easy|discriminate]. }
  split; [split|].
  - intros H. destruct (Hleft H) as (? & ? & ? & _). easy.
  - intros (Hrange & Hall & Hnodup).
    rewrite (validatePollOptions_in_range _ Hrange). cbn [errors].
    rewrite (acceptedOptions_all _ Hall). unfold duplicateErrors.
    destruct (decide (NoDup (cleanOption <$> options))); [|contradiction].
    rewrite app_nil_r. unfold optionErrors.
    now apply (optionErrors_from_nil options 0).
  - intros H. destruct (Hleft H) as (_ & _ & _ & ->). split; [reflexivity|].
    apply Forall_fmap, Forall_forall. intros o _. unfold compose, cleanOption.
    split; intros Hin; apply trim_elem in Hin;
      [now apply sanitizeText_no_lt in Hin|now apply sanitizeText_no_gt in Hin].
Qed.

Lemma validatePollOptions_accepts_witness :
  sanitized (validatePollOptions [lit " Tabs"; lit "<b>Spaces</b>"])
  = cleanOption <$> [lit " Tabs"; lit "<b>Spaces</b>"]
  /\ Forall (fun o => (c_lt ∉ o) /\ (c_gt ∉ o))
       (sanitized (validatePollOptions [lit " Tabs"; lit "<b>Spaces</b>"])).
Proof.
  apply (proj2 (validatePollOptions_accepts [lit " Tabs"; lit "<b>Spaces</b>"])).
  vm_compute. reflexivity.
Defined.

(** ** E-mail addresses *)

Lemma splitAt_Some s a b :
  splitAt_ s = Some (a, b) <-> s = a ++ c_at :: b /\ c_at ∉ a.
Proof.
  split.
  - revert a. induction s as [|x s IH]; intros a; cbn [splitAt_]; [discriminate|].
    destruct (N.eqb_spec x c_at) as [->|Hne].
    + intros [= <- <-]. split; [reflexivity|apply not_elem_of_nil].
    + destruct (splitAt_ s) as [[a' b']|]; [|discriminate].
      intros [= <- <-]. destruct (IH a' eq_refl) as [-> Ha].
      split; [reflexivity|]. apply not_elem_of_cons. now split.
  - intros [-> Ha]. induction a as [|x a IH]; cbn [app splitAt_].
    + now rewrite N.eqb_refl.
    + apply not_elem_of_cons in Ha as [Hx Ha].
      destruct (N.eqb_spec x c_at); [congruence|]. now rewrite (IH Ha).
Qed.

Lemma innerDot_spec domain :
  innerDot domain = true
  <-> exists b c, domain = b ++ c_dot :: c /\ b <> [] /\ c <> [].
Proof.
  split.
  - destruct domain as [|x r]; cbn [innerDot]; [discriminate|].
    intros H. apply existsb_exists in H as (d & Hd & Heq).
    apply N.eqb_eq in Heq. subst d.
    assert (r <> []) as Hr by (intros ->; exact Hd).
    apply in_split in Hd as (p & q & Hsplit).
    exists (x :: p), (q ++ [List.last r 0%N]). split; [|split].
    + rewrite (app_removelast_last 0%N Hr) at 1. rewrite Hsplit.
      cbn. now rewrite <- app_assoc.
    + discriminate.
    + intros Hnil. now apply app_eq_nil in Hnil as [_ ?].
  - intros (b & c & -> & Hb & Hc). destruct b as [|x b]; [congruence|].
    cbn [app innerDot]. rewrite removelast_app by discriminate.
    rewrite existsb_app. apply orb_true_iff. right.
    destruct c as [|y c]; [congruence|]. cbn [removelast existsb].
    now rewrite N.eqb_refl.
Qed.

Lemma emailChar_not_at a : forallb emailChar a = true -> c_at ∉ a.
Proof.
  intros H Hin. rewrite forallb_forall in H.
  apply list_elem_of_In, H in Hin. discriminate Hin.
Qed.

Lemma emailShape_spec s : emailShape s = true <-> localAtDomain s.
Proof.
  unfold emailShape, localAtDomain. split.
  - destruct (splitAt_ s) as [[loc domain]|] eqn:E; [|discriminate].
    apply splitAt_Some in E as [-> _]. intros H.
    apply andb_true_iff in H as [H Hdot].
    apply andb_true_iff in H as [H Hdomain].
    apply andb_true_iff in H as [Hne Hloc].
    apply innerDot_spec in Hdot as (b & c & -> & Hb & Hc).
    exists loc, b, c. repeat split; try assumption.
    + intros ->. discriminate Hne.
    + rewrite forallb_app in Hdomain. cbn [forallb] in Hdomain.
      apply andb_true_iff in Hdomain as [Hb' Hc'].
      apply andb_true_iff in Hc' as [_ Hc'].
      now rewrite !forallb_app, Hloc, Hb', Hc'.
  - intros (a & b & c & -> & Ha & Hb & Hc & Hall).
    rewrite !forallb_app in Hall.
    apply andb_true_iff in Hall as [Hall_a Hall].
    apply andb_true_iff in Hall as [Hall_b Hall_c].
    assert (splitAt_ (a ++ c_at :: b ++ c_dot :: c)
            = Some (a, b ++ c_dot :: c)) as ->
      by (apply splitAt_Some; split;
          [reflexivity|now apply emailChar_not_at]).
    rewrite Hall_a, forallb_app. cbn [forallb].
    rewrite Hall_b, Hall_c.
    assert (innerDot (b ++ c_dot :: c) = true) as ->
      by (apply innerDot_spec; now exists b, c).
    destruct a; [congruence|reflexivity].
Qed.

(** X10.  [validateEmail] tests the trimmed, lower-cased address.  It
    reports at most one error, and none exactly when that address has the
    shape [local@domain.tld] (three non-empty parts without white space
    or [@], the domain part possibly with further dots) and at most 254
    code units. *)
Theorem validateEmail_accepts
    (toLowerCase : jsstring -> jsstring) (email : jsstring) :
  let r := validateEmail toLowerCase email in
  sanitized r = toLowerCase (trim email)
  /\ length (errors r) <= 1
  /\ (errors r = []
      <-> localAtDomain (sanitized r) /\ length (sanitized r) <= 254).
Proof.
  cbv zeta. unfold validateEmail. cbn [errors sanitized].
  set (s := toLowerCase (trim email)).
  split; [reflexivity|].
  pose proof (emailShape_spec s) as Hshape.
  destruct s as [|c r] eqn:E; cbn [falsy].
  - split; [cbn; lia|]. split; [discriminate|].
    intros [(a & b & c & H & _) _]. now destruct a.
  - destruct (emailShape (c :: r)); cbn [negb].
    + destruct (Nat.ltb_spec 254 (length (c :: r))).
      * split; [cbn; lia|]. split; [discriminate|lia].
      * split; [cbn; lia|]. split; [intros _|reflexivity].
        split; [now apply Hshape|lia].
    + split; [cbn; lia|]. split; [discriminate|].
      intros [H _]. apply Hshape in H. discriminate H.
Qed.

Lemma validateEmail_accepts_witness :
  localAtDomain (lit "user@example.com")
  /\ length (lit "user@example.com") <= 254.
Proof.
  apply (proj2 (proj2 (validateEmail_accepts (fun s => s)
                         (lit "  user@example.com ")))).
  reflexivity.
Defined.

(** ** The rate limiter: one key at a time *)

Lemma checkRateLimit_verdict now id type store :
  checkRateLimit now id type store
  = ((verdict now type (store !! storeKey type id)).1,
     match (verdict now type (store !! storeKey type id)).2 with
     | Some entry => <[storeKey type id := entry]> store
     | None => store
     end).
Proof.
  unfold checkRateLimit, verdict.
  destruct (store !! storeKey type id) as [entry|]; [|reflexivity].
  destruct (now >? resetTime entry)%Z; [reflexivity|].
  destruct (count entry >=? maxAttempts (RATE_LIMITS type))%Z; reflexivity.
Qed.

Lemma checkRateLimit_other_key now id type store key :
  key <> storeKey type id ->
  (checkRateLimit now id type store).2 !! key = store !! key.
Proof.
  intros Hne. rewrite checkRateLimit_verdict. cbn [snd].
  destruct (verdict now type (store !! storeKey type id)).2; [|reflexivity].
  now apply lookup_insert_ne.
Qed.

Lemma storeKey_ne type id type' id' :
  (type, id) <> (type', id') -> storeKey type' id' <> storeKey type id.
Proof. intros Hne H. apply storeKey_inj in H as [-> ->]. now apply Hne. Qed.

(** X11.  The limits of different clients and of different classes do
    not touch one another: a check for one (class, identifier) leaves the
    entry of every other one as it is and does not change the answer of a
    later check for another one; two such checks give the same store in
    either order. *)
Theorem checkRateLimit_independent
    (now : Z) (id : jsstring) (type : RateLimitType)
    (now' : Z) (id' : jsstring) (type' : RateLimitType)
    (store : gmap jsstring RateLimitEntry) :
  (type, id) <> (type', id') ->
  (checkRateLimit now id type store).2 !! storeKey type' id'
  = store !! storeKey type' id'
  /\ (checkRateLimit now' id' type' (checkRateLimit now id type store).2).1
     = (checkRateLimit now' id' type' store).1
  /\ (checkRateLimit now' id' type' (checkRateLimit now id type store).2).2
     = (checkRateLimit now id type (checkRateLimit now' id' type' store).2).2.
Proof.
  intros Hne. pose proof (storeKey_ne _ _ _ _ Hne) as Hkey.
  assert (storeKey type id <> storeKey type' id') as Hkey' by congruence.
  pose proof (checkRateLimit_other_key now id type store _ Hkey) as Hframe.
  pose proof (checkRateLimit_other_key now' id' type' store _ Hkey') as Hframe'.
  split; [exact Hframe|]. split.
  - rewrite (checkRateLimit_verdict now' id' type' (_.2)), Hframe.
    now rewrite (checkRateLimit_verdict now' id' type' store).
  - rewrite (checkRateLimit_verdict now' id' type' (_.2)), Hframe.
    rewrite (checkRateLimit_verdict now id type (_.2)), Hframe'.
    cbn [snd]. rewrite !checkRateLimit_verdict. cbn [snd].
    destruct (verdict now type (store !! storeKey type id)).2,
             (verdict now' type' (store !! storeKey type' id')).2;
      try reflexivity.
    now apply insert_insert_ne.
Qed.

Lemma checkRateLimit_independent_witness :
  (checkRateLimit 5 (lit "10.0.0.1") auth ∅).2
    !! storeKey api (lit "10.0.0.1")
  = (∅ : gmap jsstring RateLimitEntry) !! storeKey api (lit "10.0.0.1")
  /\ (checkRateLimit 9 (lit "10.0.0.1") api
        (checkRateLimit 5 (lit "10.0.0.1") auth ∅).2).1
     = (checkRateLimit 9 (lit "10.0.0.1") api ∅).1
  /\ (checkRateLimit 9 (lit "10.0.0.1") api
        (checkRateLimit 5 (lit "10.0.0.1") auth ∅).2).2
     = (checkRateLimit 5 (lit "10.0.0.1") auth
          (checkRateLimit 9 (lit "10.0.0.1") api ∅).2).2.
Proof.
  apply (checkRateLimit_independent 5 (lit "10.0.0.1") auth
           9 (lit "10.0.0.1") api ∅).
  discriminate.
Defined.

(** ** The rate limiter: many checks in one window *)

Lemma checkMany_cons now later id type store :
  checkMany (now :: later) id type store
  = ((checkRateLimit now id type store).1
       :: (checkMany later id type (checkRateLimit now id type store).2).1,
     (checkMany later id type (checkRateLimit now id type store).2).2).
Proof.
  cbn [checkMany]. destruct (checkRateLimit now id type store) as [r store1].
  cbn [fst snd]. now destruct (checkMany later id type store1).
Qed.

Lemma checkMany_in_window later : forall id type store entry,
  store !! storeKey type id = Some entry ->
  Forall (fun t => (t <= resetTime entry)%Z) later ->
  forall k r, (checkMany later id type store).1 !! k = Some r ->
    allowed r
    = bool_decide (count entry + Z.of_nat k < maxAttempts (RATE_LIMITS type))%Z
    /\ remaining r
       = Z.max 0 (maxAttempts (RATE_LIMITS type) - (count entry + Z.of_nat k + 1))
    /\ resultResetTime r = resetTime entry.
Proof.
  induction later as [|t later IH]; intros id type store entry E Hwin k r;
    [discriminate|].
  apply Forall_cons in Hwin as [Ht Hlater].
  rewrite checkMany_cons. cbn [fst].
  destruct (Z.lt_ge_cases (count entry) (maxAttempts (RATE_LIMITS type)))
    as [Hlow|Hfull].
  - rewrite (checkRateLimit_counted _ _ _ _ _ E Ht Hlow). cbn [fst snd].
    destruct k as [|k]; cbn [lookup list_lookup].
    + intros [= <-]. cbn [allowed remaining resultResetTime].
      rewrite bool_decide_eq_true_2 by lia.
      split; [reflexivity|split; [lia|reflexivity]].
    + intros Hk.
      destruct (IH id type _ (mkEntry (count entry + 1) (resetTime entry))
                  (lookup_insert_eq _ _ _) Hlater k r Hk) as (Ha & Hr & Ht').
      cbn [count resetTime] in *. rewrite Ha, Hr, Ht'.
      split; [apply bool_decide_ext; lia|split; [lia|reflexivity]].
  - rewrite (checkRateLimit_denied _ _ _ _ _ E Ht Hfull). cbn [fst snd].
    destruct k as [|k]; cbn [lookup list_lookup].
    + intros [= <-]. cbn [allowed remaining resultResetTime].
      rewrite bool_decide_eq_false_2 by lia.
      split; [reflexivity|split; [lia|reflexivity]].
    + intros Hk.
      destruct (IH id type _ entry E Hlater k r Hk) as (Ha & Hr & Ht').
      rewrite Ha, Hr, Ht'.
      split; [apply bool_decide_ext; lia|split; [lia|reflexivity]].
Qed.

(** X12.  For every limit class: of any number of checks for one
    identifier that fall into one window (a first check that finds no
    entry, the others no later than the reset time it fixes), exactly the
    first [maxAttempts] are allowed; the check number [k + 1] reports
    [maxAttempts - (k + 1)] remaining attempts, or 0 once the limit is
    reached, and all of them report the same reset time. *)
Theorem checkRateLimit_allows_first_maxAttempts
    (id : jsstring) (type : RateLimitType)
    (store : gmap jsstring RateLimitEntry) (first : Z) (later : list Z) :
  store !! storeKey type id = None ->
  Forall (fun t => (t <= first + windowMs (RATE_LIMITS type))%Z) later ->
  forall k r, (checkMany (first :: later) id type store).1 !! k = Some r ->
    allowed r = bool_decide (Z.of_nat k < maxAttempts (RATE_LIMITS type))%Z
    /\ remaining r
       = Z.max 0 (maxAttempts (RATE_LIMITS type) - (Z.of_nat k + 1))
    /\ resultResetTime r = (first + windowMs (RATE_LIMITS type))%Z.
Proof.
  intros Hnone Hwin k r. rewrite checkMany_cons. cbn [fst].
  rewrite (checkRateLimit_absent _ _ _ _ Hnone). cbn [fst snd].
  assert (1 <= maxAttempts (RATE_LIMITS type))%Z as Hmax
    by (destruct type; cbn; lia).
  destruct k as [|k]; cbn [lookup list_lookup].
  - intros [= <-]. cbn [allowed remaining resultResetTime].
    rewrite bool_decide_eq_true_2 by lia.
    split; [reflexivity|split; [lia|reflexivity]].
  - intros Hk.
    destruct (checkMany_in_window later id type _ (freshEntry first type)
                (lookup_insert_eq _ _ _) Hwin k r Hk) as (Ha & Hr & Ht).
    cbn [count resetTime freshEntry] in *. rewrite Ha, Hr, Ht.
    split; [apply bool_decide_ext; lia|split; [lia|reflexivity]].
Qed.

Lemma checkRateLimit_allows_first_maxAttempts_witness :
  exists r,
    (checkMany [100; 200; 300; 400; 500; 600; 700]%Z (lit "10.0.0.1") auth ∅).1
      !! 5 = Some r
    /\ allowed r = false /\ remaining r = 0%Z
    /\ resultResetTime r = 900100%Z.
Proof.
  exists (mkLimit false 0 900100). split; [reflexivity|].
  apply (checkRateLimit_allows_first_maxAttempts (lit "10.0.0.1") auth ∅
           100 [200; 300; 400; 500; 600; 700]%Z) with (k := 5).
  - apply lookup_empty.
  - repeat constructor; cbn; lia.
  - reflexivity.
Defined.

(** ** The rate limiter: what a check reports *)

(** X13.  In every store the process can reach, a check leaves an entry
    under its key, and what it reports agrees with that entry: the reset
    time is the entry's, the remaining attempts are [maxAttempts] minus
    the entry's count, they lie between 0 and [maxAttempts - 1], and the
    reset time is not before the time of the check. *)
Theorem checkRateLimit_reports_entry
    (now : Z) (id : jsstring) (type : RateLimitType)
    (store : gmap jsstring RateLimitEntry) :
  reachable store ->
  let '(r, store') := checkRateLimit now id type store in
  (exists entry,
     store' !! storeKey type id = Some entry
     /\ resultResetTime r = resetTime entry
     /\ remaining r = (maxAttempts (RATE_LIMITS type) - count entry)%Z)
  /\ (0 <= remaining r <= maxAttempts (RATE_LIMITS type) - 1)%Z
  /\ (now <= resultResetTime r)%Z.
Proof.
  intros Hreach. apply reachable_wellCounted in Hreach.
  assert (1 <= maxAttempts (RATE_LIMITS type)
          /\ 0 <= windowMs (RATE_LIMITS type))%Z as [Hmax Hwindow]
    by (destruct type; cbn; lia).
  destruct (store !! storeKey type id) as [entry|] eqn:E.
  - destruct (Hreach _ _ E) as (type' & id' & Hkey & Hcount).
    apply storeKey_inj in Hkey as [<- _].
    destruct (Z.lt_ge_cases (resetTime entry) now) as [Hexp|Hwin].
    + rewrite (checkRateLimit_expired _ _ _ _ _ E Hexp).
      cbn [remaining resultResetTime]. split; [|lia].
      eexists. split; [apply lookup_insert_eq|]. cbn. split; [reflexivity|lia].
    + destruct (Z.lt_ge_cases (count entry) (maxAttempts (RATE_LIMITS type)))
        as [Hlow|Hfull].
      * rewrite (checkRateLimit_counted _ _ _ _ _ E Hwin Hlow).
        cbn [remaining resultResetTime]. split; [|lia].
        eexists. split; [apply lookup_insert_eq|]. cbn. split; [reflexivity|lia].
      * rewrite (checkRateLimit_denied _ _ _ _ _ E Hwin Hfull).
        cbn [remaining resultResetTime]. split; [|lia].
        exists entry. split; [exact E|]. split; [reflexivity|lia].
  - rewrite (checkRateLimit_absent _ _ _ _ E).
    cbn [remaining resultResetTime]. split; [|lia].
    eexists. split; [apply lookup_insert_eq|]. cbn. split; [reflexivity|lia].
Qed.

Lemma checkRateLimit_reports_entry_witness :
  let '(r, store') := checkRateLimit 1000 (lit "10.0.0.1") api ∅ in
  (exists entry,
     store' !! storeKey api (lit "10.0.0.1") = Some entry
     /\ resultResetTime r = resetTime entry
     /\ remaining r = (maxAttempts (RATE_LIMITS api) - count entry)%Z)
  /\ (0 <= remaining r <= maxAttempts (RATE_LIMITS api) - 1)%Z
  /\ (1000 <= resultResetTime r)%Z.
Proof.
  apply (checkRateLimit_reports_entry 1000 (lit "10.0.0.1") api ∅).
  apply reach_init.
Defined.

(** ** The periodic clean-up *)

Lemma lookup_cleanupExpiredEntries now store key :
  cleanupExpiredEntries now store !! key
  = match store !! key with
    | Some entry => if (now >? resetTime entry)%Z then None else Some entry
    | None => None
    end.
Proof.
  unfold cleanupExpiredEntries.
  destruct (store !! key) as [entry|] eqn:E.
  - destruct (now >? resetTime entry)%Z eqn:Hexp.
    + apply map_lookup_filter_None. right. intros e He.
      rewrite E in He. injection He as <-. cbn. now rewrite Hexp.
    + apply map_lookup_filter_Some. split; [exact E|]. cbn. now rewrite Hexp.
  - apply map_lookup_filter_None. now left.
Qed.

(** X14.  [cleanupExpiredEntries] deletes exactly the entries whose reset
    time has passed and keeps the others as they are; and it is not seen
    by the limiter: a check made at the time of the clean-up or later
    gives the same answer with and without the clean-up. *)
Theorem cleanupExpiredEntries_unseen
    (now : Z) (store : gmap jsstring RateLimitEntry) :
  (forall key entry,
     cleanupExpiredEntries now store !! key = Some entry
     <-> store !! key = Some entry /\ (now <= resetTime entry)%Z)
  /\ (forall now' id type,
     (now <= now')%Z ->
     (checkRateLimit now' id type (cleanupExpiredEntries now store)).1
     = (checkRateLimit now' id type store).1).
Proof.
  split.
  - intros key entry. rewrite lookup_cleanupExpiredEntries.
    destruct (store !! key) as [e|]; [|easy].
    destruct (Z.gtb_spec now (resetTime e)).
    + split; [discriminate|intros [[= ->] ?]; lia].
    + split; [intros [= ->]; split; [reflexivity|lia]|now intros [? _]].
  - intros now' id type Hlater.
    rewrite !checkRateLimit_verdict. cbn [fst].
    rewrite lookup_cleanupExpiredEntries.
    destruct (store !! storeKey type id) as [entry|]; [|reflexivity].
    destruct (Z.gtb_spec now (resetTime entry)); [|reflexivity].
    unfold verdict.
    destruct (Z.gtb_spec now' (resetTime entry)); [reflexivity|lia].
Qed.

Lemma cleanupExpiredEntries_unseen_witness :
  let store : gmap jsstring RateLimitEntry :=
    {[ storeKey auth (lit "10.0.0.1") := mkEntry 5 1000 ]} in
  (checkRateLimit 2500 (lit "10.0.0.1") auth
     (cleanupExpiredEntries 2000 store)).1
  = (checkRateLimit 2500 (lit "10.0.0.1") auth store).1.
Proof.
  apply (proj2 (cleanupExpiredEntries_unseen 2000
                  {[ storeKey auth (lit "10.0.0.1") := mkEntry 5 1000 ]})).
  lia.
Defined.

(** ** The middleware: denied and admitted requests *)

Lemma checkRateLimit_denied_inv now id type store :
  allowed (checkRateLimit now id type store).1 = false ->
  exists entry,
    store !! storeKey type id = Some entry
    /\ checkRateLimit now id type store
       = (mkLimit false 0 (resetTime entry), store).
Proof.
  unfold checkRateLimit.
  destruct (store !! storeKey type id) as [entry|]; [|discriminate].
  destruct (now >? resetTime entry)%Z; [discriminate|].
  destruct (count entry >=? maxAttempts (RATE_LIMITS type))%Z;
    [|discriminate].
  intros _. now exists entry.
Qed.

Section MiddlewareProperties.

Variable NextRequest : Type.
Variable requestHeaders : NextRequest -> Headers.

(** X15.  A denied request never reaches the handler and changes nothing
    in the store: whatever the handler, the result is the same 429
    response together with the store as it was; the response's
    [Retry-After] is the number of seconds, rounded up, from the moment
    the header is built to the reset time, and its
    [X-RateLimit-Remaining] is 0. *)
Theorem withRateLimit_denied
    (handler handler' : Handler NextRequest)
    (rateLimitType : option RateLimitType) (now now1 now2 : Z)
    (req : NextRequest) (store : gmap jsstring RateLimitEntry) :
  let limit := (checkRateLimit now (getClientIP (requestHeaders req))
                  (default api rateLimitType) store).1 in
  let out := withRateLimit NextRequest requestHeaders handler rateLimitType
               now now1 now2 req store in
  allowed limit = false ->
  out = withRateLimit NextRequest requestHeaders handler' rateLimitType
          now now1 now2 req store
  /\ out.2 = store
  /\ status out.1 = 429%Z
  /\ getHeader (lit "Retry-After") (headers out.1)
     = Some (numToString (ceilSeconds (resultResetTime limit - now2)))
  /\ getHeader (lit "X-RateLimit-Remaining") (headers out.1)
     = Some (lit "0").
Proof.
  cbv zeta. intros Hdenied. unfold withRateLimit.
  destruct (checkRateLimit_denied_inv _ _ _ _ Hdenied) as (entry & _ & ->).
  cbn [fst snd allowed negb resultResetTime remaining status headers].
  split; [reflexivity|]. split; [reflexivity|]. split; [reflexivity|].
  split.
  - rewrite !getHeader_setHeader_other by (vm_compute; discriminate).
    apply getHeader_setHeader_same.
  - rewrite !getHeader_setHeader_other by (vm_compute; discriminate).
    apply getHeader_setHeader_same.
Qed.

(** X16.  An admitted request is handed to the handler with the store as
    the check left it; the response is the handler's, with its body, its
    status and its other headers untouched, and with the three rate-limit
    headers set, over whatever the handler had put there. *)
Theorem withRateLimit_admitted
    (handler : Handler NextRequest)
    (rateLimitType : option RateLimitType) (now now1 now2 : Z)
    (req : NextRequest) (store : gmap jsstring RateLimitEntry) :
  let limit := checkRateLimit now (getClientIP (requestHeaders req))
                 (default api rateLimitType) store in
  let handled := handler req limit.2 in
  let out := withRateLimit NextRequest requestHeaders handler rateLimitType
               now now1 now2 req store in
  allowed limit.1 = true ->
  out.2 = handled.2
  /\ body out.1 = body handled.1
  /\ status out.1 = status handled.1
  /\ getHeader (lit "X-RateLimit-Remaining") (headers out.1)
     = Some (numToString (remaining limit.1))
  /\ getHeader (lit "X-RateLimit-Reset") (headers out.1)
     = Some (numToString (resultResetTime limit.1))
  /\ (forall name,
        asciiLower name <> asciiLower (lit "X-RateLimit-Limit") ->
        asciiLower name <> asciiLower (lit "X-RateLimit-Remaining") ->
        asciiLower name <> asciiLower (lit "X-RateLimit-Reset") ->
        getHeader name (headers out.1) = getHeader name (headers handled.1)).
Proof.
  cbv zeta. unfold withRateLimit.
  destruct (checkRateLimit now (getClientIP (requestHeaders req))
              (default api rateLimitType) store) as [limit store1].
  cbn [fst snd]. intros ->. cbn [negb].
  destruct (handler req store1) as [response store2].
  cbn [fst snd body status headers].
  split; [reflexivity|]. split; [reflexivity|]. split; [reflexivity|].
  split; [|split].
  - rewrite !getHeader_setHeader_other by (vm_compute; discriminate).
    apply getHeader_setHeader_same.
  - apply getHeader_setHeader_same.
  - intros name H1 H2 H3.
    now rewrite !getHeader_setHeader_other by congruence.
Qed.

End MiddlewareProperties.

Lemma withRateLimit_denied_witness :
  let store : gmap jsstring RateLimitEntry :=
    {[ storeKey api (lit "unknown") := mkEntry 30 61000 ]} in
  let handler : Handler unit :=
    fun _ s => (mkResponse (lit "ok") 200 ∅, s) in
  let out := withRateLimit unit (fun _ => mkHeaders None None None) handler
               None 50000 50001 50002 tt store in
  out.2 = store /\ status out.1 = 429%Z
  /\ getHeader (lit "Retry-After") (headers out.1) = Some (lit "11").
Proof.
  cbv zeta.
  destruct (withRateLimit_denied unit (fun _ => mkHeaders None None None)
              (fun _ s => (mkResponse (lit "ok") 200 ∅, s))
              (fun _ s => (mkResponse (lit "ok") 200 ∅, s))
              None 50000 50001 50002 tt
              {[ storeKey api (lit "unknown") := mkEntry 30 61000 ]})
    as (_ & Hstore & Hstatus & Hretry & _).
  - rewrite (checkRateLimit_denied 50000 (lit "unknown") api _
               (mkEntry 30 61000));
      [reflexivity|apply lookup_singleton_eq|cbn; lia|cbn; lia].
  - split; [exact Hstore|]. split; [exact Hstatus|].
    rewrite Hretry.
    rewrite (checkRateLimit_denied 50000 (lit "unknown") api _
               (mkEntry 30 61000));
      [reflexivity|apply lookup_singleton_eq|cbn; lia|cbn; lia].
Defined.

Lemma withRateLimit_admitted_witness :
  let handler : Handler unit :=
    fun _ s => (mkResponse (lit "ok") 201 ∅, s) in
  let out := withRateLimit unit (fun _ => mkHeaders None None None) handler
               (Some pollCreation) 1000 1001 1002 tt ∅ in
  status out.1 = 201%Z
  /\ getHeader (lit "X-RateLimit-Remaining") (headers out.1) = Some (lit "2").
Proof.
  cbv zeta.
  destruct (withRateLimit_admitted unit (fun _ => mkHeaders None None None)
              (fun _ s => (mkResponse (lit "ok") 201 ∅, s))
              (Some pollCreation) 1000 1001 1002 tt ∅)
    as (_ & _ & Hstatus & Hremaining & _).
  - reflexivity.
  - split; [exact Hstatus|exact Hremaining].
Defined.

(** ** The authentication handlers: what they can answer *)

Ltac among_messages :=
  apply list_elem_of_In; cbn [In app emailMessages passwordMessages nameMessages];
  repeat first [left; reflexivity | right].

Lemma validateEmail_messages toLowerCase email e rest :
  errors (validateEmail toLowerCase email) = e :: rest -> e ∈ emailMessages.
Proof.
  unfold validateEmail. cbn [errors].
  destruct (falsy _); [intros [= <- _]; among_messages|].
  destruct (emailShape _); cbn [negb]; [|intros [= <- _]; among_messages].
  destruct (254 <? _); [intros [= <- _]; among_messages|discriminate].
Qed.

Lemma validatePassword_messages password e rest :
  passwordErrors (validatePassword password) = e :: rest ->
  e ∈ passwordMessages.
Proof.
  unfold validatePassword.
  destruct (falsy _); [intros [= <- _]; among_messages|].
  destruct (_ <? 8); [intros [= <- _]; among_messages|].
  destruct (128 <? _); [intros [= <- _]; among_messages|].
  destruct (testLookahead isLower _);
    cbn [negb]; [|intros [= <- _]; among_messages].
  destruct (testLookahead isUpper _);
    cbn [negb]; [|intros [= <- _]; among_messages].
  destruct (testLookahead isDigit _);
    cbn [negb]; [discriminate|intros [= <- _]; among_messages].
Qed.

Lemma validateName_messages name e rest :
  errors (validateName name) = e :: rest -> e ∈ nameMessages.
Proof.
  unfold validateName. cbn [errors].
  destruct (falsy _); [intros [= <- _]; among_messages|].
  destruct (_ <? 2); [intros [= <- _]; among_messages|].
  destruct (100 <? _); [intros [= <- _]; among_messages|].
  destruct (nameShape _); cbn [negb];
    [discriminate|intros [= <- _]; among_messages].
Qed.

(** X17.  Whatever the form data and whatever the platform answers, the
    error [login] returns is [null] or one of ten fixed messages (three
    about the e-mail address, six about the password, and "Invalid email
    or password"), and the error [register] returns is [null] or one of
    fourteen; no text of the form data or of the platform is in them. *)
Theorem login_register_fixed_messages
    (toLowerCase : jsstring -> jsstring)
    (signInWithPassword : jsstring -> jsstring -> option AuthError)
    (signUp : jsstring -> jsstring -> jsstring -> option AuthError) :
  (forall data,
     errorAmong (emailMessages ++ passwordMessages
                 ++ [lit "Invalid email or password"])
       (login toLowerCase signInWithPassword data))
  /\ (forall data,
     errorAmong (emailMessages ++ passwordMessages ++ nameMessages
                 ++ [lit "Failed to create account. Please try again."])
       (register toLowerCase signUp data)).
Proof.
  split; intros data; unfold errorAmong.
  - unfold login.
    destruct (errors (validateEmail _ _)) as [|e rest] eqn:He.
    2:{ apply validateEmail_messages in He. cbn [error].
        apply elem_of_app. now left. }
    destruct (passwordErrors _) as [|e rest] eqn:Hp.
    2:{ apply validatePassword_messages in Hp. cbn [error].
        apply elem_of_app. right. apply elem_of_app. now left. }
    destruct (signInWithPassword _ _); cbn [error]; [|exact I].
    among_messages.
  - unfold register.
    destruct (errors (validateEmail _ _)) as [|e rest] eqn:He.
    2:{ apply validateEmail_messages in He. cbn [error].
        apply elem_of_app. now left. }
    destruct (passwordErrors _) as [|e rest] eqn:Hp.
    2:{ apply validatePassword_messages in Hp. cbn [error].
        apply elem_of_app. right. apply elem_of_app. now left. }
    destruct (errors (validateName _)) as [|e rest] eqn:Hn.
    2:{ apply validateName_messages in Hn. cbn [error].
        do 2 (apply elem_of_app; right). apply elem_of_app. now left. }
    destruct (signUp _ _ _); cbn [error]; [|exact I].
    among_messages.
Qed.

(** X18.  [login] returns no error exactly when the e-mail address and
    the password pass validation and the platform's sign-in, called with
    the trimmed and lower-cased address and the password as typed,
    reports no error; [register] likewise, with the name passing
    validation and the sign-up called with the sanitized, trimmed name. *)
Theorem login_register_succeed_iff
    (toLowerCase : jsstring -> jsstring)
    (signInWithPassword : jsstring -> jsstring -> option AuthError)
    (signUp : jsstring -> jsstring -> jsstring -> option AuthError) :
  (forall data,
     error (login toLowerCase signInWithPassword data) = None
     <-> errors (validateEmail toLowerCase (loginEmail data)) = []
         /\ passwordErrors (validatePassword (loginPassword data)) = []
         /\ signInWithPassword (toLowerCase (trim (loginEmail data)))
              (loginPassword data) = None)
  /\ (forall data,
     error (register toLowerCase signUp data) = None
     <-> errors (validateEmail toLowerCase (registerEmail data)) = []
         /\ passwordErrors (validatePassword (registerPassword data)) = []
         /\ errors (validateName (registerName data)) = []
         /\ signUp (toLowerCase (trim (registerEmail data)))
              (registerPassword data)
              (trim (sanitizeText (registerName data))) = None).
Proof.
  split; intros data.
  - unfold login.
    change (sanitized (validateEmail toLowerCase (loginEmail data)))
      with (toLowerCase (trim (loginEmail data))).
    destruct (errors (validateEmail _ _)); [|easy].
    destruct (passwordErrors _); [|easy].
    destruct (signInWithPassword _ _); easy.
  - unfold register.
    change (sanitized (validateEmail toLowerCase (registerEmail data)))
      with (toLowerCase (trim (registerEmail data))).
    change (sanitized (validateName (registerName data)))
      with (trim (sanitizeText (registerName data))).
    destruct (errors (validateEmail _ _)); [|easy].
    destruct (passwordErrors _); [|easy].
    destruct (errors (validateName _)); [|easy].
    destruct (signUp _ _ _); easy.
Qed.

(** ** The environment *)

Import Env.

Lemma length_splitChar c s :
  length (splitChar c s) = S (length (List.filter (fun x => (x =? c)%N) s)).
Proof.
  induction s as [|x s IH]; [reflexivity|].
  cbn [splitChar List.filter]. destruct (x =? c)%N.
  - cbn [length]. now rewrite IH.
  - destruct (splitChar c s) as [|piece pieces]; [discriminate IH|exact IH].
Qed.

Lemma includes_dot s : includes (lit ".") s = negb (dots s =? 0).
Proof.
  unfold dots. induction s as [|x s IH]; [reflexivity|].
  change (includes (lit ".") (x :: s))
    with (((c_dot =? x)%N && true) || includes (lit ".") s).
  rewrite IH, andb_true_r, N.eqb_sym. cbn [List.filter].
  destruct (x =? c_dot)%N; reflexivity.
Qed.

Lemma unset_false env name :
  unset env name = false <-> exists c r, env !! name = Some (c :: r).
Proof.
  unfold unset. destruct (env !! name) as [[|c r]|].
  - split; [discriminate|intros (? & ? & [=])].
  - split; [now exists c, r|reflexivity].
  - split; [discriminate|intros (? & ? & [=])].
Qed.

(** X19.  [getEnvConfig] returns a configuration (instead of throwing)
    exactly when the two required variables are set, the URL starts with
    [https://] and contains [.supabase.co] somewhere, and the key has
    exactly two dots; the configuration then carries these two values,
    the secret key if it is set, and [NODE_ENV], which is ["development"]
    when that variable is unset or empty. *)
Theorem getEnvConfig_returns_iff
    (env : gmap jsstring jsstring) (config : EnvConfig) :
  getEnvConfig env = Returned config
  <-> exists url key,
        env !! lit "NEXT_PUBLIC_SUPABASE_URL" = Some url
        /\ env !! lit "NEXT_PUBLIC_SUPABASE_ANON_KEY" = Some key
        /\ startsWith (lit "https://") url = true
        /\ includes (lit ".supabase.co") url = true
        /\ dots key = 2
        /\ config
           = mkEnvConfig url key (env !! lit "SUPABASE_SECRET_KEY")
               (match env !! lit "NODE_ENV" with
                | Some (c :: r) => c :: r
                | _ => lit "development"
                end).
Proof.
  unfold getEnvConfig, requiredVars. cbn [List.filter].
  rewrite includes_dot, length_splitChar. fold (dots
    (default [] (env !! lit "NEXT_PUBLIC_SUPABASE_ANON_KEY"))).
  split.
  - destruct (unset env (lit "NEXT_PUBLIC_SUPABASE_URL")) eqn:Hurl;
      destruct (unset env (lit "NEXT_PUBLIC_SUPABASE_ANON_KEY")) eqn:Hkey;
      cbn [length Nat.ltb Nat.leb]; try discriminate.
    apply unset_false in Hurl as (c & r & Hurl).
    apply unset_false in Hkey as (c' & r' & Hkey).
    rewrite Hurl, Hkey. cbn [length Nat.ltb Nat.leb default from_option id].
    destruct (startsWith _ _) eqn:Hhttps; cbn [negb orb]; [|discriminate].
    destruct (includes _ _) eqn:Hhost; cbn [negb]; [|discriminate].
    destruct (Nat.eqb_spec (dots (c' :: r')) 0) as [|Hsome];
      cbn [negb orb]; [discriminate|].
    destruct (Nat.eqb_spec (S (dots (c' :: r'))) 3) as [Hthree|];
      cbn [negb]; [|discriminate].
    intros [= <-]. exists (c :: r), (c' :: r').
    repeat split; try assumption; try reflexivity. lia.
  - intros (url & key & Hurl & Hkey & Hhttps & Hhost & Hdots & ->).
    assert (unset env (lit "NEXT_PUBLIC_SUPABASE_URL") = false) as ->.
    { apply unset_false. destruct url as [|c r]; [discriminate Hhttps|].
      now exists c, r. }
    assert (unset env (lit "NEXT_PUBLIC_SUPABASE_ANON_KEY") = false) as ->.
    { apply unset_false. destruct key as [|c r]; [discriminate Hdots|].
      now exists c, r. }
    rewrite Hurl, Hkey. cbn [length Nat.ltb Nat.leb default from_option id].
    now rewrite Hhttps, Hhost, Hdots.
Qed.

Lemma getEnvConfig_returns_iff_witness :
  let env : gmap jsstring jsstring :=
    {[ lit "NEXT_PUBLIC_SUPABASE_URL" := lit "https://abc.supabase.co" ]}
    ∪ {[ lit "NEXT_PUBLIC_SUPABASE_ANON_KEY" := lit "aaa.bbb.ccc" ]} in
  exists url key,
    env !! lit "NEXT_PUBLIC_SUPABASE_URL" = Some url
    /\ env !! lit "NEXT_PUBLIC_SUPABASE_ANON_KEY" = Some key
    /\ startsWith (lit "https://") url = true
    /\ includes (lit ".supabase.co") url = true
    /\ dots key = 2
    /\ mkEnvConfig (lit "https://abc.supabase.co") (lit "aaa.bbb.ccc") None
         (lit "development")
       = mkEnvConfig url key (env !! lit "SUPABASE_SECRET_KEY")
           (match env !! lit "NODE_ENV" with
            | Some (c :: r) => c :: r
            | _ => lit "development"
            end).
Proof.
  cbv zeta.
  apply (proj1 (getEnvConfig_returns_iff _
                  (mkEnvConfig (lit "https://abc.supabase.co")
                     (lit "aaa.bbb.ccc") None (lit "development")))).
  vm_compute. reflexivity.
Defined.

(** ** [sanitizeText] in one pass *)

Lemma sanitizeText_flat_map s :
  sanitizeText s = flat_map escapeTextChar (strip_tags s).
Proof.
  unfold sanitizeText. induction (strip_tags s) as [|c t IH]; [reflexivity|].
  change (flat_map escapeTextChar (c :: t))
    with (escapeTextChar c ++ flat_map escapeTextChar t).
  change (c :: t) with ([c] ++ t). rewrite !replaceChar_app, IH.
  f_equal. unfold escapeTextChar.
  repeat (match goal with
          | |- context [(c =? ?x)%N] =>
              destruct (N.eqb_spec c x) as [->|?]; [reflexivity|]
          end).
  rewrite (replaceChar_id c_amp _ [c]) by now apply not_elem_of_singleton_ne.
  rewrite (replaceChar_id c_lt _ [c]) by now apply not_elem_of_singleton_ne.
  rewrite (replaceChar_id c_gt _ [c]) by now apply not_elem_of_singleton_ne.
  rewrite (replaceChar_id c_quot _ [c]) by now apply not_elem_of_singleton_ne.
  now rewrite (replaceChar_id c_apos _ [c])
    by now apply not_elem_of_singleton_ne.
Qed.

Lemma escapeTextChar_length c : 1 <= length (escapeTextChar c) <= 6.
Proof.
  unfold escapeTextChar.
  repeat (match goal with
          | |- context [(c =? ?x)%N] =>
              destruct (c =? x)%N; [vm_compute; lia|]
          end).
  cbn; lia.
Qed.

(** X20.  [sanitizeText] is the removal of tags followed by one pass that
    replaces each remaining code unit by its entity (the slash is left as
    it is); its output is at most six times as long as its input, and on
    an input without [<] it is at least as long as the input. *)
Theorem sanitizeText_single_pass (s : jsstring) :
  sanitizeText s = flat_map escapeTextChar (strip_tags s)
  /\ length (sanitizeText s) <= 6 * length s
  /\ (c_lt ∉ s -> length s <= length (sanitizeText s)).
Proof.
  split; [apply sanitizeText_flat_map|].
  assert (forall t, length t <= length (flat_map escapeTextChar t)
                    <= 6 * length t) as Hbound.
  { induction t as [|c t IH]; [cbn; lia|].
    cbn [flat_map]. rewrite length_app. cbn [length].
    pose proof (escapeTextChar_length c). lia. }
  rewrite sanitizeText_flat_map. split.
  - pose proof (sublist_length _ _ (strip_tags_sublist s)).
    pose proof (Hbound (strip_tags s)). lia.
  - intros Hlt. rewrite (strip_tags_fixed s) by now apply tagFree_no_lt.
    apply Hbound.
Qed.

Lemma sanitizeText_single_pass_witness :
  length (lit "Tom & Jerry") <= length (sanitizeText (lit "Tom & Jerry")).
Proof.
  apply (proj2 (proj2 (sanitizeText_single_pass (lit "Tom & Jerry")))).
  not_in_literal.
Defined.

(** ** The client identifier *)

Lemma beforeComma_no_comma s : c_comma ∉ beforeComma s.
Proof.
  induction s as [|c s IH]; cbn [beforeComma]; [apply not_elem_of_nil|].
  destruct (N.eqb_spec c c_comma); [apply not_elem_of_nil|].
  apply not_elem_of_cons. split; [congruence|exact IH].
Qed.

Lemma beforeComma_elem x s : x ∈ beforeComma s -> x ∈ s.
Proof.
  induction s as [|c s IH]; cbn [beforeComma]; [easy|].
  destruct (c =? c_comma)%N; [intros H; now apply elem_of_nil in H|].
  intros H. apply elem_of_cons in H as [->|H]; [left|right; now apply IH].
Qed.

(** X21.  When neither [cf-connecting-ip] nor [x-real-ip] has a value,
    the identifier taken from a non-empty [x-forwarded-for] is made of
    code units of that header, contains no comma, and neither begins nor
    ends with white space; with no value in any of the three headers the
    identifier is ["unknown"]. *)
Theorem getClientIP_from_forwarded (forwarded : option jsstring)
    (realIP cfConnectingIP : option jsstring) :
  truthy cfConnectingIP = None ->
  truthy realIP = None ->
  let ip := getClientIP (mkHeaders forwarded realIP cfConnectingIP) in
  (truthy forwarded = None -> ip = lit "unknown")
  /\ (forall value, truthy forwarded = Some value ->
        (c_comma ∉ ip)
        /\ (forall x, x ∈ ip -> x ∈ value)
        /\ (forall x, head ip = Some x \/ last ip = Some x ->
              isWhiteSpace x = false)).
Proof.
  intros Hcf Hreal. cbv zeta. unfold getClientIP.
  cbn [cf_connecting_ip x_real_ip x_forwarded_for]. rewrite Hcf, Hreal.
  split; [now intros ->|]. intros value ->. split; [|split].
  - intros H. apply trim_elem in H. now apply beforeComma_no_comma in H.
  - intros x H. now apply beforeComma_elem, trim_elem.
  - intros x [H|H].
    + destruct (trim (beforeComma value)) as [|y t] eqn:E; [discriminate|].
      injection H as ->. exact (trim_head _ _ _ E).
    + exact (trim_last _ _ H).
Qed.

Lemma getClientIP_from_forwarded_witness :
  let ip := getClientIP
              (mkHeaders (Some (lit " 203.0.113.7 , 10.0.0.1")) None (Some []))
  in ip = lit "203.0.113.7" /\ (c_comma ∉ ip).
Proof.
  cbv zeta. split; [reflexivity|].
  destruct (getClientIP_from_forwarded (Some (lit " 203.0.113.7 , 10.0.0.1"))
              None (Some []) eq_refl eq_refl) as [_ H].
  exact (proj1 (H _ eq_refl)).
Defined.
